(** * AsynchronousCache: the lifecycle core of the asynchronous cache manager

    A shallow embedding of [include/AsynchronousCache/AsynchronousCache.h].

    The class template is abstract: the derived class supplies [Load],
    [Unload], [HasRoomFor] and [GetElement].  Here that interface is the type
    class [BackingStore] over the derived object's own data [B]; none of the
    four is [const] in the source, so each may change that data.  The cache
    object is the entry list [m_entries] together with the derived data, and
    a log of the calls made through the interface, which is what statements
    such as "without contacting the backing store" are about.

    [std::list<Entry>] is a [list Entry], head first.  An iterator into it is
    the position it designates: the entries before it and the entries from it
    on, the latter empty at [end()]. *)

From stdpp Require Import base decidable list.

Set Default Proof Using "Type".

(** ** The small state monad the member functions run in *)

Definition M (S A : Type) : Type := S -> A * S.

Definition ret {S A} (a : A) : M S A := fun s => (a, s).

Definition bind {S A C} (m : M S A) (f : A -> M S C) : M S C :=
  fun s => let (a, s') := m s in f a s'.

Declare Scope cache_scope.
Delimit Scope cache_scope with cache.
Notation "x <- m ;; f" := (bind m (fun x => f))
  (at level 100, m at next level, right associativity) : cache_scope.
Notation "m ;;; f" := (bind m (fun _ => f))
  (at level 100, right associativity) : cache_scope.
Local Open Scope cache_scope.

(** ** The interface of the derived class *)

Class BackingStore (Key Handle Ptr B : Type) := {
  (** [virtual Handle Load(Key const & key) = 0] *)
  Load : Key -> B -> Handle * B;
  (** [virtual void Unload(Handle const & handle) = 0] *)
  Unload : Handle -> B -> B;
  (** [virtual bool HasRoomFor(Key const & key) = 0] *)
  HasRoomFor : Key -> B -> bool * B;
  (** [virtual Element * GetElement(Handle const & handle) = 0]; the null
      pointer is [None] *)
  GetElement : Handle -> B -> option Ptr * B
}.

(** [enum State] of [Entry] *)
Inductive State : Type :=
| STATE_REQUESTED    (* Waiting to be loaded *)
| STATE_PREFETCHED   (* Waiting to be prefetched *)
| STATE_AVAILABLE    (* Loaded *)
| STATE_RELEASED.    (* Waiting to be unloaded *)

#[global] Instance State_eq_dec : EqDecision State.
Proof. solve_decision. Defined.

Section AsynchronousCache.

(** [Key] and [Handle] have [operator==]; [Ptr] is the type of the
    addresses of elements, [Element *] being [option Ptr]. *)
Context {Key Handle Ptr B : Type}.
Context `{EqDecision Key, EqDecision Handle, EqDecision Ptr}.
Context `{BS : BackingStore Key Handle Ptr B}.

(** *** Entry *)

Record Entry : Type := mkEntry {
  key : Key;                 (* The key for finding this entry *)
  state : State;             (* The state of the entry *)
  handle : Handle;           (* Handle returned by Load() *)
  pElement : option Ptr      (* The element represented by this entry *)
}.

(** [Entry(Key const & k, Handle const & t, State s)]: [pElement(0)] *)
Definition new_Entry (k : Key) (t : Handle) (s : State) : Entry :=
  {| key := k; state := s; handle := t; pElement := None |}.

Definition set_state (s : State) (e : Entry) : Entry :=
  {| key := key e; state := s; handle := handle e; pElement := pElement e |}.

Definition set_pElement (p : option Ptr) (e : Entry) : Entry :=
  {| key := key e; state := state e; handle := handle e; pElement := p |}.

(** The three functors of [Entry] *)
Definition pointer_equals (m_pElement : option Ptr) (entry : Entry) : bool :=
  bool_decide (pElement entry = m_pElement).

Definition key_equals (m_key : Key) (entry : Entry) : bool :=
  bool_decide (key entry = m_key).

Definition handle_equals (m_handle : Handle) (entry : Entry) : bool :=
  bool_decide (handle entry = m_handle).

(** *** Iterators *)

Definition EntryList : Type := list Entry.

(** The entries before the position, and those from it on. *)
Definition iterator : Type := EntryList * EntryList.

(** [it == m_entries.end()] *)
Definition is_end (it : iterator) : bool :=
  match it.2 with [] => true | _ :: _ => false end.

(** [std::find_if(first, last, pred)]: the first position whose entry
    satisfies [pred], else [end()]. *)
Fixpoint find_if (pred : Entry -> bool) (l : EntryList) : iterator :=
  match l with
  | [] => ([], [])
  | e :: l' =>
      if pred e then ([], l)
      else let (before, rest) := find_if pred l' in (e :: before, rest)
  end.

(** *** The cache object *)

(** A call through the interface, with what it returned. *)
Inductive Call : Type :=
| CallLoad (k : Key) (h : Handle)
| CallUnload (h : Handle)
| CallHasRoomFor (k : Key) (room : bool)
| CallGetElement (h : Handle) (p : option Ptr).

Record Cache : Type := mkCache {
  m_entries : EntryList;     (* The cache entries *)
  backing : B;               (* the data of the derived class *)
  calls : list Call          (* the interface calls so far, oldest first *)
}.

(** [AsynchronousCache()] over a derived object with data [b]. *)
Definition new_Cache (b : B) : Cache :=
  {| m_entries := []; backing := b; calls := [] |}.

Definition set_entries (l : EntryList) : M Cache unit :=
  fun c => (tt, {| m_entries := l; backing := backing c; calls := calls c |}).

Definition get_entries : M Cache EntryList := fun c => (m_entries c, c).

Definition did (ev : Call) (b' : B) (c : Cache) : Cache :=
  {| m_entries := m_entries c; backing := b'; calls := calls c ++ [ev] |}.

Definition call_Load (k : Key) : M Cache Handle :=
  fun c => let (h, b') := Load k (backing c) in (h, did (CallLoad k h) b' c).

Definition call_Unload (h : Handle) : M Cache unit :=
  fun c => (tt, did (CallUnload h) (Unload h (backing c)) c).

Definition call_HasRoomFor (k : Key) : M Cache bool :=
  fun c => let (room, b') := HasRoomFor k (backing c) in
           (room, did (CallHasRoomFor k room) b' c).

Definition call_GetElement (h : Handle) : M Cache (option Ptr) :=
  fun c => let (p, b') := GetElement h (backing c) in
           (p, did (CallGetElement h p) b' c).

(** *** Private member functions *)

(** The three overloads of [Find]: by key, by handle, and by the address
    of the element. *)
Definition Find (k : Key) : M Cache iterator :=
  l <- get_entries ;; ret (find_if (key_equals k) l).

Definition Find_handle (h : Handle) : M Cache iterator :=
  l <- get_entries ;; ret (find_if (handle_equals h) l).

Definition Find_pointer (p : option Ptr) : M Cache iterator :=
  l <- get_entries ;; ret (find_if (pointer_equals p) l).

(** [Evict(pEntry)] at the position of [e], between [before] and [after]:
    unloads and erases, and returns the position of the next entry. *)
Definition Evict (before : EntryList) (e : Entry) (after : EntryList)
  : M Cache iterator :=
  call_Unload (handle e) ;;;
  set_entries (before ++ after) ;;;
  ret (before, after).

(** [Reload(pEntry)] *)
Definition Reload (before : EntryList) (e : Entry) (after : EntryList)
  : M Cache unit :=
  set_entries (before ++ set_state STATE_AVAILABLE e :: after).

(** The loop of [MakeRoomForNewEntry], from the position between [before]
    and [rest].  [HasRoomFor] is the left operand of [&&]: it is called
    before the position is compared with [end()]. *)
Fixpoint MakeRoom_loop (k : Key) (before rest : EntryList) {struct rest}
  : M Cache unit :=
  room <- call_HasRoomFor k ;;
  match rest with
  | [] => ret tt
  | e :: after =>
      if room then ret tt
      else
        match state e with
        | STATE_RELEASED | STATE_PREFETCHED =>
            Evict before e after ;;; MakeRoom_loop k before after
        | _ => MakeRoom_loop k (before ++ [e]) after
        end
  end.

Definition MakeRoomForNewEntry (k : Key) : M Cache bool :=
  l <- get_entries ;;
  MakeRoom_loop k [] l ;;;
  call_HasRoomFor k.

(** [Fetch(key, state)]: [end()] when there is no room. *)
Definition Fetch (k : Key) (s : State) : M Cache iterator :=
  ok <- MakeRoomForNewEntry k ;;
  if ok then
    h <- call_Load k ;;
    l <- get_entries ;;
    set_entries (l ++ [new_Entry k h s]) ;;;
    ret (l, [new_Entry k h s])
  else
    l <- get_entries ;; ret (l, []).

(** [Release(EntryList::iterator & pEntry, bool forceEviction)] *)
Definition Release_entry (before : EntryList) (e : Entry) (after : EntryList)
    (forceEviction : bool) : M Cache unit :=
  if bool_decide (state e = STATE_REQUESTED) || forceEviction then
    Evict before e after ;;; ret tt
  else if bool_decide (state e = STATE_AVAILABLE) then
    (* the entry, now released, is spliced to the end *)
    set_entries (before ++ after ++ [set_state STATE_RELEASED e])
  else
    (* error can only release requested or available elements *)
    ret tt.

(** *** Public member functions *)

Definition Request (k : Key) : M Cache bool :=
  pEntry <- Find k ;;
  match pEntry with
  | (before, e :: after) =>
      match state e with
      | STATE_REQUESTED | STATE_AVAILABLE => ret tt
      | STATE_PREFETCHED =>
          p <- call_GetElement (handle e) ;;
          match p with
          | Some _ =>
              set_entries
                (before ++ set_state STATE_AVAILABLE (set_pElement p e) :: after)
          | None =>
              set_entries (before ++ set_state STATE_REQUESTED e :: after)
          end
      | STATE_RELEASED => Reload before e after
      end ;;;
      ret true
  | (_, []) =>
      it <- Fetch k STATE_REQUESTED ;;
      ret (negb (is_end it))
  end.

Definition Prefetch (k : Key) : M Cache unit :=
  pEntry <- Find k ;;
  match pEntry with
  | (before, e :: after) =>
      match state e with
      | STATE_REQUESTED | STATE_AVAILABLE => ret tt
      | STATE_PREFETCHED | STATE_RELEASED =>
          set_entries (before ++ after ++ [e])
      end
  | (_, []) => Fetch k STATE_PREFETCHED ;;; ret tt
  end.

Definition Get (k : Key) : M Cache (option Ptr) :=
  pEntry <- Find k ;;
  match pEntry with
  | (before, e :: after) =>
      if bool_decide (state e = STATE_REQUESTED) then
        p <- call_GetElement (handle e) ;;
        match p with
        | Some _ =>
            set_entries
              (before ++ set_state STATE_AVAILABLE (set_pElement p e) :: after) ;;;
            ret p
        | None => ret (pElement e)
        end
      else ret (pElement e)
  | (_, []) => ret None
  end.

(** [Release(Key const & key, bool forceEviction)] *)
Definition Release (k : Key) (forceEviction : bool) : M Cache unit :=
  pEntry <- Find k ;;
  match pEntry with
  | (before, e :: after) => Release_entry before e after forceEviction
  | (_, []) => ret tt
  end.

(** [Release(Element const * pElement, bool forceEviction)] *)
Definition Release_pointer (p : option Ptr) (forceEviction : bool)
  : M Cache unit :=
  pEntry <- Find_pointer p ;;
  match pEntry with
  | (before, e :: after) => Release_entry before e after forceEviction
  | (_, []) => ret tt
  end.

(** The local [empty] of [IsEmpty]. *)
Definition IsEmpty_empty (c : Cache) : bool :=
  match m_entries c with [] => true | _ :: _ => false end.

(** [IsEmpty() const]: the body is [bool empty = m_entries.empty();] and
    nothing else; control leaves the function without a [return], so the
    caller is handed no value. *)
Definition IsEmpty (c : Cache) : option bool :=
  let empty := IsEmpty_empty c in
  None.

(** The loop of [Clear]: the position stays at [begin()]. *)
Fixpoint Clear_loop (rest : EntryList) : M Cache unit :=
  match rest with
  | [] => ret tt
  | e :: after => Evict [] e after ;;; Clear_loop after
  end.

Definition Clear : M Cache unit :=
  l <- get_entries ;; Clear_loop l.

(** [IsCached(key) const] *)
Definition IsCached (k : Key) (c : Cache) : bool :=
  match find_if (key_equals k) (m_entries c) with
  | (_, e :: _) =>
      bool_decide (state e = STATE_AVAILABLE)
      || bool_decide (state e = STATE_RELEASED)
  | (_, []) => false
  end.

End AsynchronousCache.

(** ** Sequences of operations *)

Section Operations.

Context {Key Handle Ptr B : Type}.
Context `{EqDecision Key, EqDecision Handle, EqDecision Ptr}.
Context `{BS : BackingStore Key Handle Ptr B}.

Abbreviation Cache := (@Cache Key Handle Ptr B).

(** What can happen to a cache object: a call of a public member function
    that is not [const], or the derived object's data changing on its own
    (a load completing out of band). *)
Inductive Op : Type :=
| OpRequest (k : Key)
| OpPrefetch (k : Key)
| OpGet (k : Key)
| OpRelease (k : Key) (forceEviction : bool)
| OpReleasePointer (p : option Ptr) (forceEviction : bool)
| OpClear
| OpBacking (b : B).

Definition step (c : Cache) (o : Op) : Cache :=
  match o with
  | OpRequest k => (Request k c).2
  | OpPrefetch k => (Prefetch k c).2
  | OpGet k => (Get k c).2
  | OpRelease k f => (Release k f c).2
  | OpReleasePointer p f => (Release_pointer p f c).2
  | OpClear => (Clear c).2
  | OpBacking b =>
      {| m_entries := m_entries c; backing := b; calls := calls c |}
  end.

Definition run (ops : list Op) (c : Cache) : Cache := fold_left step ops c.

(** [Request(k)] called [n] times in a row. *)
Fixpoint Request_times (n : nat) (k : Key) : M Cache unit :=
  match n with
  | 0 => ret tt
  | S n' => Request k ;;; Request_times n' k
  end.

(** *** Predicates on entries and on the entry list *)

Definition evictable (e : @Entry Key Handle Ptr) : bool :=
  match state e with
  | STATE_RELEASED | STATE_PREFETCHED => true
  | STATE_REQUESTED | STATE_AVAILABLE => false
  end.

(** The element pointer is null while the entry waits for its load, and
    not null once it has been available. *)
Definition resolved_ok (e : @Entry Key Handle Ptr) : bool :=
  match state e with
  | STATE_REQUESTED | STATE_PREFETCHED =>
      match pElement e with None => true | Some _ => false end
  | STATE_AVAILABLE | STATE_RELEASED =>
      match pElement e with None => false | Some _ => true end
  end.

Definition keys (l : list (@Entry Key Handle Ptr)) : list Key := key <$> l.

Definition handles (l : list (@Entry Key Handle Ptr)) : list Handle :=
  handle <$> l.

(** No key twice, and every element pointer set exactly in the entries that
    have been available. *)
Definition entries_ok (l : list (@Entry Key Handle Ptr)) : Prop :=
  NoDup (keys l) /\ Forall (fun e => resolved_ok e = true) l.

(** What [Clear] leaves of the derived object's data: every entry unloaded,
    head first. *)
Definition unload_all (l : list (@Entry Key Handle Ptr)) (b : B) : B :=
  fold_left (fun b' e => Unload (handle e) b') l b.

(** The calls the loop of [MakeRoomForNewEntry] makes while it passes the
    entries [scanned]: before each of them [HasRoomFor] says no, and the
    ones that can be evicted are unloaded. *)
Definition scan_calls (k : Key) (scanned : list (@Entry Key Handle Ptr))
  : list (@Call Key Handle Ptr) :=
  flat_map
    (fun e =>
       CallHasRoomFor k false
       :: (if evictable e then [CallUnload (handle e)] else []))
    scanned.

(** What the loop leaves of the entries it passed. *)
Definition kept (scanned : list (@Entry Key Handle Ptr))
  : list (@Entry Key Handle Ptr) :=
  List.filter (fun e => negb (evictable e)) scanned.

(** *** Reading the log of calls *)

Definition is_Load (ev : @Call Key Handle Ptr) : bool :=
  match ev with CallLoad _ _ => true | _ => false end.

Definition is_Unload (ev : @Call Key Handle Ptr) : bool :=
  match ev with CallUnload _ => true | _ => false end.

Definition count_calls (f : @Call Key Handle Ptr -> bool)
    (l : list (@Call Key Handle Ptr)) : nat :=
  length (List.filter f l).

(** Every load started is either still held by an entry or was unloaded. *)
Definition balanced (c : Cache) : Prop :=
  count_calls is_Load (calls c)
  = count_calls is_Unload (calls c) + length (m_entries c).

(** The entry's handle is one that [Load] returned for its key, and its
    element pointer, when set, is one that [GetElement] returned for that
    handle. *)
Definition sourced (cs : list (@Call Key Handle Ptr))
    (e : @Entry Key Handle Ptr) : Prop :=
  CallLoad (key e) (handle e) ∈ cs /\
  forall q, pElement e = Some q -> CallGetElement (handle e) (Some q) ∈ cs.

(** Both together: what the log of calls accounts for. *)
Definition accounted (c : Cache) : Prop :=
  balanced c /\ Forall (sourced (calls c)) (m_entries c).


(** The entries of the other keys, in their order. *)
Definition other_keys (k : Key) (l : list (@Entry Key Handle Ptr))
  : list (@Entry Key Handle Ptr) :=
  List.filter (fun e => negb (key_equals k e)) l.

End Operations.

(** ** A backing store with a fixed number of slots

    A derived class small enough to run: keys, handles and addresses are
    numbers, a load takes the next handle and occupies a slot until it is
    unloaded, and every load is complete once [loaded] is set. *)

Module SlotStore.

Record t : Type := mk {
  slots : nat;
  live : list nat;
  next : nat;
  loaded : bool
}.

#[global] Instance backing_store : BackingStore nat nat nat t := {|
  Load _ b :=
    (next b,
     {| slots := slots b; live := live b ++ [next b];
        next := S (next b); loaded := loaded b |});
  Unload h b :=
    {| slots := slots b;
       live := List.filter (fun h' => negb (Nat.eqb h' h)) (live b);
       next := next b; loaded := loaded b |};
  HasRoomFor _ b := (Nat.ltb (length (live b)) (slots b), b);
  GetElement h b :=
    (if loaded b && existsb (Nat.eqb h) (live b) then Some (100 + h) else None,
     b)
|}.

(** No slot taken, nothing loaded yet. *)
Definition fresh (n : nat) : t :=
  {| slots := n; live := []; next := 0; loaded := false |}.

Definition finish_loads (b : t) : t :=
  {| slots := slots b; live := live b; next := next b; loaded := true |}.

Definition Cache : Type := @Cache nat nat nat t.

(** Key 7 requested, loaded, got and released. *)
Definition released7 : Cache :=
  let c1 := (Request 7 (new_Cache (fresh 2))).2 in
  let c2 := step c1 (OpBacking (finish_loads (backing c1))) in
  let c3 := (Get 7 c2).2 in
  (Release 7 false c3).2.

(** Key 7 prefetched, its load still running. *)
Definition prefetched7 : Cache := (Prefetch 7 (new_Cache (fresh 2))).2.

(** Key 7 requested, its load still running. *)
Definition requested7 : Cache := (Request 7 (new_Cache (fresh 2))).2.

(** Key 7 available. *)
Definition available7 : Cache :=
  let c1 := (Request 7 (new_Cache (fresh 2))).2 in
  let c2 := step c1 (OpBacking (finish_loads (backing c1))) in
  (Get 7 c2).2.

(** Both slots held by requests. *)
Definition full : Cache :=
  (Request 2 (Request 1 (new_Cache (fresh 2))).2).2.

(** Three slots: key 2 requested, key 3 prefetched, key 1 released after its
    load, in the order of the list. *)
Definition mixed : Cache :=
  run [OpRequest 1; OpRequest 2; OpPrefetch 3;
       OpBacking {| slots := 3; live := [0; 1; 2]; next := 3; loaded := true |};
       OpGet 1; OpRelease 1 false]
      (new_Cache (fresh 3)).

(** Key 1 requested and key 2 prefetched, then the store shrinks to one
    slot while both loads run. *)
Definition shrunk : Cache :=
  run [OpRequest 1; OpPrefetch 2;
       OpBacking {| slots := 1; live := [0; 1]; next := 2; loaded := false |}]
      (new_Cache (fresh 2)).

End SlotStore.

(** * Properties *)

Section Properties.

Context {Key Handle Ptr B : Type}.
Context `{EqDecision Key, EqDecision Handle, EqDecision Ptr}.
Context `{BS : BackingStore Key Handle Ptr B}.

Abbreviation Entry' := (@Entry Key Handle Ptr).
Abbreviation Cache' := (@Cache Key Handle Ptr B).

Implicit Types (k : Key) (h : Handle) (p : option Ptr) (e : Entry').
Implicit Types (l before after rest : list Entry') (c : Cache').

Ltac unfold_monad :=
  unfold Find, Find_pointer, Find_handle, Evict, Reload, bind, ret,
    get_entries, set_entries, call_Load, call_Unload, call_HasRoomFor,
    call_GetElement, did in *;
  simpl in *.

(** ** [find_if] *)

Lemma find_if_split pred l before rest :
  find_if pred l = (before, rest) -> l = before ++ rest.
Proof.
  revert before rest.
  induction l as [|e l IH]; intros before rest; simpl.
  - by intros [= <- <-].
  - destruct (pred e).
    + by intros [= <- <-].
    + destruct (find_if pred l) as [b r].
      intros [= <- <-]. simpl. f_equal. by apply IH.
Qed.

Lemma find_if_before pred l before rest :
  find_if pred l = (before, rest) -> Forall (fun e => pred e = false) before.
Proof.
  revert before rest.
  induction l as [|e l IH]; intros before rest; simpl.
  - intros [= <- <-]. constructor.
  - destruct (pred e) eqn:He.
    + intros [= <- <-]. constructor.
    + destruct (find_if pred l) as [b r].
      intros [= <- <-]. constructor; [done | by eapply IH].
Qed.

Lemma find_if_here pred l before e after :
  find_if pred l = (before, e :: after) -> pred e = true.
Proof.
  revert before.
  induction l as [|e' l IH]; intros before; simpl.
  - by intros [= _ ?].
  - destruct (pred e') eqn:He.
    + by intros [= <- <- <-].
    + destruct (find_if pred l) as [b r].
      intros [= <- ->]. by eapply IH.
Qed.

Lemma find_if_end pred l before :
  find_if pred l = (before, []) -> Forall (fun e => pred e = false) l.
Proof.
  intros Hf. pose proof (find_if_split _ _ _ _ Hf) as ->.
  rewrite app_nil_r. by eapply find_if_before.
Qed.

Lemma find_key_absent k l before :
  find_if (key_equals k) l = (before, []) -> k ∉ keys l.
Proof.
  intros Hf%find_if_end. unfold keys.
  induction Hf as [|e l He _ IH]; simpl.
  - apply not_elem_of_nil.
  - apply not_elem_of_cons. split; [|done].
    unfold key_equals in He. apply bool_decide_eq_false in He. congruence.
Qed.

Lemma find_key_here k l before e after :
  find_if (key_equals k) l = (before, e :: after) -> key e = k.
Proof.
  intros He%find_if_here. unfold key_equals in He.
  by apply bool_decide_eq_true in He.
Qed.

(** ** The entry list under the lifecycle operations *)

Lemma cache_eta c :
  {| m_entries := m_entries c; backing := backing c; calls := calls c |} = c.
Proof. by destruct c. Qed.

(** C9. Calling [Request(k)] on an entry that is available, any number of
    times, makes no call to the backing store and leaves the whole cache
    object as it was: the entries, the derived object's data and the log of
    calls are unchanged, and every call answers [true]. *)
Theorem Request_available_idempotent k c before e after n :
  (Find k c).1 = (before, e :: after) ->
  state e = STATE_AVAILABLE ->
  Request k c = (true, c) /\ Request_times n k c = (tt, c).
Proof.
  intros Hf Hs.
  assert (Request k c = (true, c)) as HR.
  { unfold Request. unfold_monad. rewrite Hf, Hs. done. }
  split; [done|].
  induction n as [|n IH]; simpl; [done|].
  unfold bind. by rewrite HR.
Qed.

(** C6. [Request(k)] on an entry that is released puts it back to available
    where it stands, with the key, the handle and the element pointer it
    had, makes no call to the backing store, and answers [true]. *)
Theorem Request_released_reloads k c before e after :
  (Find k c).1 = (before, e :: after) ->
  state e = STATE_RELEASED ->
  Request k c =
    (true,
     {| m_entries :=
          before
          ++ {| key := key e; state := STATE_AVAILABLE;
                handle := handle e; pElement := pElement e |} :: after;
        backing := backing c;
        calls := calls c |}).
Proof.
  intros Hf Hs. unfold Request. unfold_monad. by rewrite Hf, Hs.
Qed.

(** ** Making room *)

Lemma kept_sublist l : kept l `sublist_of` l.
Proof.
  unfold kept. induction l as [|e l IH]; simpl; [constructor|].
  destruct (negb (evictable e)); by constructor.
Qed.

Lemma MakeRoom_loop_scan k rest : forall before c,
  m_entries c = before ++ rest ->
  exists scanned unscanned room c',
    MakeRoom_loop k before rest c = (tt, c') /\
    rest = scanned ++ unscanned /\
    (room = false -> unscanned = []) /\
    m_entries c' = before ++ kept scanned ++ unscanned /\
    calls c' = calls c ++ scan_calls k scanned ++ [CallHasRoomFor k room].
Proof.
  induction rest as [|e after IH]; intros before c Hc; simpl; unfold_monad.
  - destruct (HasRoomFor k (backing c)) as [room b'].
    exists [], [], room. eexists. split; [done|]. simpl.
    rewrite Hc. by repeat split.
  - destruct (HasRoomFor k (backing c)) as [room b'] eqn:Hroom.
    destruct room.
    { exists [], (e :: after), true. eexists. split; [done|]. simpl.
      rewrite Hc. by repeat split. }
    destruct (evictable e) eqn:Hev.
    + set (c2 := {| m_entries := before ++ after;
                    backing := Unload (handle e) b';
                    calls := (calls c ++ [CallHasRoomFor k false])
                             ++ [CallUnload (handle e)] |}).
      destruct (IH before c2 eq_refl)
        as (scanned & unscanned & room & c' & Hrun & -> & Hend & Hl & Hcalls).
      exists (e :: scanned), unscanned, room, c'.
      split.
      { unfold evictable in Hev. destruct (state e); try done; exact Hrun. }
      split; [done|]. split; [done|]. split.
      * unfold kept in *. simpl. by rewrite Hev.
      * rewrite Hcalls. unfold scan_calls. simpl. rewrite Hev. simpl.
        by rewrite <- !app_assoc.
    + set (c1 := {| m_entries := m_entries c; backing := b';
                    calls := calls c ++ [CallHasRoomFor k false] |}).
      assert (m_entries c1 = (before ++ [e]) ++ after) as Hc1.
      { simpl. rewrite Hc. by rewrite <- app_assoc. }
      destruct (IH (before ++ [e]) c1 Hc1)
        as (scanned & unscanned & room & c' & Hrun & -> & Hend & Hl & Hcalls).
      exists (e :: scanned), unscanned, room, c'.
      split.
      { unfold evictable in Hev. destruct (state e); try done; exact Hrun. }
      split; [done|]. split; [done|]. split.
      * rewrite Hl. unfold kept. simpl. rewrite Hev. simpl.
        by rewrite <- app_assoc.
      * rewrite Hcalls. unfold scan_calls. simpl. rewrite Hev. simpl.
        by rewrite <- !app_assoc.
Qed.

Lemma MakeRoomForNewEntry_sublist k c :
  m_entries (MakeRoomForNewEntry k c).2 `sublist_of` m_entries c.
Proof.
  destruct (MakeRoom_loop_scan k (m_entries c) [] c eq_refl)
    as (scanned & unscanned & room & c' & Hrun & Hsplit & _ & Hl & _).
  unfold MakeRoomForNewEntry. unfold_monad. rewrite Hrun.
  destruct (HasRoomFor k (backing c')) as [r b'']. simpl.
  rewrite Hl, Hsplit. apply sublist_app; [apply kept_sublist | done].
Qed.

Lemma MakeRoomForNewEntry_last_call k c :
  exists earlier,
    calls (MakeRoomForNewEntry k c).2
    = earlier ++ [CallHasRoomFor k (MakeRoomForNewEntry k c).1].
Proof.
  unfold MakeRoomForNewEntry. unfold_monad.
  destruct (MakeRoom_loop k [] (m_entries c) c) as [[] c'].
  destruct (HasRoomFor k (backing c')) as [r b'']. simpl. by eexists.
Qed.

(** C4. [MakeRoomForNewEntry(key)] walks the entry list from the head.  The
    list splits into the entries it passed, [scanned], and the ones it never
    reached, [unscanned]: before each entry it passed [HasRoomFor(key)] said
    no, and the entry was unloaded and erased exactly when its state was
    released or prefetched; the walk ended on the first [HasRoomFor(key)]
    that said yes, or else at the tail; every requested or available entry is
    still in the list, in place; and the answer is what the last call of
    [HasRoomFor(key)] returned. *)
Theorem MakeRoomForNewEntry_scan k c :
  exists scanned unscanned room,
    m_entries c = scanned ++ unscanned /\
    (room = false -> unscanned = []) /\
    m_entries (MakeRoomForNewEntry k c).2 = kept scanned ++ unscanned /\
    calls (MakeRoomForNewEntry k c).2
      = calls c
        ++ scan_calls k scanned
        ++ [CallHasRoomFor k room;
            CallHasRoomFor k (MakeRoomForNewEntry k c).1] /\
    (forall e, e ∈ m_entries c ->
       state e = STATE_REQUESTED \/ state e = STATE_AVAILABLE ->
       e ∈ m_entries (MakeRoomForNewEntry k c).2) /\
    (forall e, e ∈ m_entries (MakeRoomForNewEntry k c).2 -> e ∈ m_entries c).
Proof.
  destruct (MakeRoom_loop_scan k (m_entries c) [] c eq_refl)
    as (scanned & unscanned & room & c' & Hrun & Hsplit & Hend & Hl & Hcalls).
  exists scanned, unscanned, room.
  unfold MakeRoomForNewEntry. unfold_monad. rewrite Hrun.
  destruct (HasRoomFor k (backing c')) as [r b'']. simpl.
  split; [done|]. split; [done|]. split; [done|]. split.
  { rewrite Hcalls. unfold scan_calls. by rewrite <- !app_assoc. }
  rewrite Hl, Hsplit. unfold kept. split.
  - intros e He Hs. apply elem_of_app in He as [He|He].
    + apply elem_of_app. left. apply list_elem_of_In, filter_In.
      split; [by apply list_elem_of_In|].
      unfold evictable. by destruct Hs as [-> | ->].
    + apply elem_of_app. by right.
  - intros e He. apply elem_of_app in He as [He|He]; apply elem_of_app.
    + left. apply list_elem_of_In, filter_In in He as [He _].
      by apply list_elem_of_In.
    + by right.
Qed.

(** ** What every operation keeps true of the entry list *)

Lemma entries_ok_nil : entries_ok ([] : list Entry').
Proof. split; constructor. Qed.

Lemma entries_ok_sublist l l' :
  l `sublist_of` l' -> entries_ok l' -> entries_ok l.
Proof.
  intros Hsub [Hnd Hall]. split.
  - eapply sublist_NoDup; [exact Hnd|]. unfold keys. by apply fmap_sublist.
  - apply Forall_forall. intros e He.
    eapply Forall_forall in Hall; [exact Hall|]. by eapply elem_of_sublist.
Qed.

Lemma entries_ok_erase before e after :
  entries_ok (before ++ e :: after) -> entries_ok (before ++ after).
Proof.
  apply entries_ok_sublist. apply sublist_app; [done|]. by apply sublist_cons.
Qed.

Lemma entries_ok_replace before e e' after :
  key e' = key e -> resolved_ok e' = true ->
  entries_ok (before ++ e :: after) -> entries_ok (before ++ e' :: after).
Proof.
  intros Hk Hr [Hnd Hall]. split.
  - unfold keys in *. rewrite fmap_app, fmap_cons in *. by rewrite Hk.
  - apply Forall_app in Hall as [Hb Ha]. apply Forall_cons in Ha as [_ Ha].
    apply Forall_app. split; [done|]. by apply Forall_cons.
Qed.

Lemma entries_ok_to_end before e e' after :
  key e' = key e -> resolved_ok e' = true ->
  entries_ok (before ++ e :: after) -> entries_ok (before ++ after ++ [e']).
Proof.
  intros Hk Hr Hok.
  destruct (entries_ok_replace before e e' after Hk Hr Hok) as [Hnd Hall].
  assert (before ++ after ++ [e'] ≡ₚ before ++ e' :: after) as Hperm.
  { apply Permutation_app_head. symmetry. apply Permutation_cons_append. }
  split.
  - unfold keys in *. by rewrite Hperm.
  - by rewrite Hperm.
Qed.

Lemma entries_ok_push l k h s :
  k ∉ keys l -> s = STATE_REQUESTED \/ s = STATE_PREFETCHED ->
  entries_ok l -> entries_ok (l ++ [new_Entry k h s]).
Proof.
  intros Hk Hs [Hnd Hall]. split.
  - unfold keys in *. rewrite fmap_app. simpl.
    apply NoDup_app. split; [done|]. split; [|apply NoDup_singleton].
    intros k' Hin ->%list_elem_of_singleton. done.
  - apply Forall_app. split; [done|]. apply Forall_singleton.
    by destruct Hs as [-> | ->].
Qed.

Lemma Fetch_entries_ok k s c :
  k ∉ keys (m_entries c) -> s = STATE_REQUESTED \/ s = STATE_PREFETCHED ->
  entries_ok (m_entries c) -> entries_ok (m_entries (Fetch k s c).2).
Proof.
  intros Hk Hs Hok.
  pose proof (MakeRoomForNewEntry_sublist k c) as Hsub.
  assert (entries_ok (m_entries (MakeRoomForNewEntry k c).2)) as Hok'.
  { by eapply entries_ok_sublist. }
  assert (k ∉ keys (m_entries (MakeRoomForNewEntry k c).2)) as Hk'.
  { intros Hin. apply Hk. eapply elem_of_sublist; [exact Hin|].
    unfold keys. by apply fmap_sublist. }
  unfold Fetch. unfold_monad.
  destruct (MakeRoomForNewEntry k c) as [[] c1]; simpl in *; [|done].
  destruct (Load k (backing c1)) as [h b']. simpl.
  by apply entries_ok_push.
Qed.

Lemma Request_entries_ok k c :
  entries_ok (m_entries c) -> entries_ok (m_entries (Request k c).2).
Proof.
  intros Hok. unfold Request. unfold_monad.
  destruct (find_if (key_equals k) (m_entries c)) as [before [|e after]] eqn:Hf.
  - apply find_key_absent in Hf.
    pose proof (Fetch_entries_ok k STATE_REQUESTED c Hf (or_introl eq_refl) Hok).
    by destruct (Fetch k STATE_REQUESTED c).
  - pose proof (find_if_split _ _ _ _ Hf) as Hl. rewrite Hl in Hok.
    assert (resolved_ok e = true) as He.
    { destruct Hok as [_ Hall]. apply Forall_app in Hall as [_ Hall].
      by apply Forall_cons in Hall as [? _]. }
    unfold resolved_ok in He.
    destruct (state e) eqn:Hs; simpl; try (by rewrite Hl).
    + destruct (GetElement (handle e) (backing c)) as [[q|] b']; simpl;
        (eapply entries_ok_replace; [| |exact Hok]; [done|]);
        unfold resolved_ok; simpl; done.
    + unfold Reload. simpl.
      eapply entries_ok_replace; [| |exact Hok]; [done|].
      unfold resolved_ok. simpl. by destruct (pElement e).
Qed.

Lemma Prefetch_entries_ok k c :
  entries_ok (m_entries c) -> entries_ok (m_entries (Prefetch k c).2).
Proof.
  intros Hok. unfold Prefetch. unfold_monad.
  destruct (find_if (key_equals k) (m_entries c)) as [before [|e after]] eqn:Hf.
  - apply find_key_absent in Hf.
    pose proof (Fetch_entries_ok k STATE_PREFETCHED c Hf (or_intror eq_refl) Hok).
    by destruct (Fetch k STATE_PREFETCHED c).
  - pose proof (find_if_split _ _ _ _ Hf) as Hl. rewrite Hl in Hok.
    assert (resolved_ok e = true) as He.
    { destruct Hok as [_ Hall]. apply Forall_app in Hall as [_ Hall].
      by apply Forall_cons in Hall as [? _]. }
    destruct (state e) eqn:Hs; simpl; try (by rewrite Hl);
      by eapply entries_ok_to_end.
Qed.

Lemma Get_entries_ok k c :
  entries_ok (m_entries c) -> entries_ok (m_entries (Get k c).2).
Proof.
  intros Hok. unfold Get. unfold_monad.
  destruct (find_if (key_equals k) (m_entries c)) as [before [|e after]] eqn:Hf;
    [done|].
  pose proof (find_if_split _ _ _ _ Hf) as Hl.
  case_bool_decide as Hs; simpl; [|done].
  destruct (GetElement (handle e) (backing c)) as [[q|] b']; simpl; [|done].
  rewrite Hl in Hok. eapply entries_ok_replace; [| |exact Hok]; done.
Qed.

Lemma Release_entry_entries_ok before e after f c :
  m_entries c = before ++ e :: after ->
  entries_ok (m_entries c) ->
  entries_ok (m_entries (Release_entry before e after f c).2).
Proof.
  intros Hl Hok. unfold Release_entry. unfold_monad.
  rewrite Hl in Hok.
  destruct (bool_decide (state e = STATE_REQUESTED) || f); simpl.
  { by eapply entries_ok_erase. }
  case_bool_decide as Hs; simpl; [|by rewrite Hl].
  eapply entries_ok_to_end; [| |exact Hok]; [done|].
  destruct Hok as [_ Hall]. apply Forall_app in Hall as [_ Hall].
  apply Forall_cons in Hall as [He _].
  unfold resolved_ok in *. simpl. by rewrite Hs in He.
Qed.

Lemma Clear_loop_spec rest : forall c,
  m_entries c = rest ->
  Clear_loop rest c =
    (tt, {| m_entries := [];
            backing := unload_all rest (backing c);
            calls := calls c ++ (CallUnload <$> handles rest) |}).
Proof.
  induction rest as [|e after IH]; intros c Hc; simpl; unfold_monad.
  - rewrite app_nil_r, <- Hc. by rewrite cache_eta.
  - rewrite IH by done. simpl. by rewrite <- app_assoc.
Qed.

Lemma step_entries_ok c o :
  entries_ok (m_entries c) -> entries_ok (m_entries (step c o)).
Proof.
  intros Hok. destruct o as [k|k|k|k f|p f| |b]; simpl.
  - by apply Request_entries_ok.
  - by apply Prefetch_entries_ok.
  - by apply Get_entries_ok.
  - unfold Release. unfold_monad.
    destruct (find_if (key_equals k) (m_entries c)) as [before [|e after]] eqn:Hf;
      [done|].
    apply Release_entry_entries_ok; [|done]. by eapply find_if_split.
  - unfold Release_pointer. unfold_monad.
    destruct (find_if (pointer_equals p) (m_entries c))
      as [before [|e after]] eqn:Hf; [done|].
    apply Release_entry_entries_ok; [|done]. by eapply find_if_split.
  - unfold Clear. unfold_monad. rewrite Clear_loop_spec by done.
    apply entries_ok_nil.
  - done.
Qed.

Lemma run_entries_ok ops : forall c,
  entries_ok (m_entries c) -> entries_ok (m_entries (run ops c)).
Proof.
  induction ops as [|o ops IH]; intros c Hok; simpl; [done|].
  apply IH. by apply step_entries_ok.
Qed.

(** C8. Starting from a new cache and whatever sequence of [Request],
    [Prefetch], [Get], [Release] (by key or by address) and [Clear] is
    called, with the backing store changing in between as it likes, no two
    entries of the list have the same key. *)
Theorem run_keys_NoDup (ops : list Op) (b : B) :
  NoDup (keys (m_entries (run ops (new_Cache b)))).
Proof.
  apply (run_entries_ok ops (new_Cache b)). apply entries_ok_nil.
Qed.

(** ** [Get] *)

Lemma found_resolved_ok l before e after :
  entries_ok l -> l = before ++ e :: after -> resolved_ok e = true.
Proof.
  intros [_ Hall] ->. apply Forall_app in Hall as [_ Hall].
  by apply Forall_cons in Hall as [? _].
Qed.

(** C1 (amended). In every cache reached from a new one, [Get(k)] answers
    null for a key that has no entry and for an entry that is prefetched;
    for an entry that is available or released it answers the element
    pointer stored in the entry, which is not null; in these cases it makes
    no call and changes nothing.  Only for a requested entry does it call
    [GetElement] on the entry's handle, once: the answer of that call is the
    answer of [Get], and when it is not null the entry becomes available and
    keeps the pointer. *)
Theorem Get_by_state (ops : list Op) (b : B) k :
  let c := run ops (new_Cache b) in
  match (Find k c).1 with
  | (_, []) => Get k c = (None, c)
  | (before, e :: after) =>
      match state e with
      | STATE_AVAILABLE | STATE_RELEASED =>
          pElement e <> None /\ Get k c = (pElement e, c)
      | STATE_PREFETCHED => Get k c = (None, c)
      | STATE_REQUESTED =>
          Get k c =
            (let (p, b') := GetElement (handle e) (backing c) in
             (p,
              {| m_entries :=
                   match p with
                   | Some _ =>
                       before
                       ++ {| key := key e; state := STATE_AVAILABLE;
                             handle := handle e; pElement := p |} :: after
                   | None => m_entries c
                   end;
                 backing := b';
                 calls := calls c ++ [CallGetElement (handle e) p] |}))
      end
  end.
Proof.
  intros c.
  assert (entries_ok (m_entries c)) as Hok.
  { apply run_entries_ok, entries_ok_nil. }
  unfold Get. unfold_monad.
  destruct (find_if (key_equals k) (m_entries c)) as [before [|e after]] eqn:Hf;
    [done|].
  pose proof (found_resolved_ok _ _ _ _ Hok (find_if_split _ _ _ _ Hf)) as He.
  unfold resolved_ok in He.
  destruct (state e) eqn:Hs; simpl.
  - destruct (GetElement (handle e) (backing c)) as [[q|] b']; simpl; [done|].
    by destruct (pElement e).
  - by destruct (pElement e).
  - by destruct (pElement e).
  - by destruct (pElement e).
Qed.

(** ** [Release] *)

Lemma Release_entry_forced before e after c :
  Release_entry before e after true c =
    (tt, {| m_entries := before ++ after;
            backing := Unload (handle e) (backing c);
            calls := calls c ++ [CallUnload (handle e)] |}).
Proof.
  unfold Release_entry. unfold_monad. by rewrite orb_true_r.
Qed.

Lemma Release_entry_requested before e after f c :
  state e = STATE_REQUESTED ->
  Release_entry before e after f c =
    (tt, {| m_entries := before ++ after;
            backing := Unload (handle e) (backing c);
            calls := calls c ++ [CallUnload (handle e)] |}).
Proof.
  intros Hs. unfold Release_entry. unfold_monad. by rewrite Hs.
Qed.

Lemma Release_entry_not_held before e after c :
  state e = STATE_PREFETCHED \/ state e = STATE_RELEASED ->
  Release_entry before e after false c = (tt, c).
Proof.
  intros Hs. unfold Release_entry. unfold_monad.
  by destruct Hs as [-> | ->].
Qed.

(** C3 (amended). For an entry that is prefetched or released, [Release]
    without [forceEviction] changes nothing at all: the entry keeps its
    state and its place, and no call is made; [Release] has nothing to
    return and nothing is recorded anywhere.  With [forceEviction] the entry
    is unloaded and erased like any other. *)
Theorem Release_never_held k c before e after :
  (Find k c).1 = (before, e :: after) ->
  state e = STATE_PREFETCHED \/ state e = STATE_RELEASED ->
  Release k false c = (tt, c) /\
  Release_entry before e after false c = (tt, c) /\
  Release k true c =
    (tt, {| m_entries := before ++ after;
            backing := Unload (handle e) (backing c);
            calls := calls c ++ [CallUnload (handle e)] |}).
Proof.
  intros Hf Hs. unfold Release. unfold_monad. rewrite Hf.
  rewrite Release_entry_forced.
  by rewrite (Release_entry_not_held before e after c Hs).
Qed.

Lemma find_if_finds pred l e0 :
  e0 ∈ l -> pred e0 = true ->
  exists before e after, find_if pred l = (before, e :: after).
Proof.
  intros Hin Hp.
  destruct (find_if pred l) as [before [|e after]] eqn:Hf; [|by eauto].
  apply find_if_end in Hf. eapply Forall_forall in Hf; [|exact Hin].
  congruence.
Qed.

(** C10 (amended). In a cache reached from a new one that has an entry whose
    element pointer is still null, [Release] with a null pointer picks the
    first such entry, which is requested or prefetched.  It is unloaded and
    erased when it is requested or [forceEviction] is set; when it is
    prefetched and [forceEviction] is not set, the call changes nothing. *)
Theorem Release_null_pointer (ops : list Op) (b : B) f e0 :
  let c := run ops (new_Cache b) in
  e0 ∈ m_entries c -> pElement e0 = None ->
  exists before e after,
    m_entries c = before ++ e :: after /\
    Forall (fun e' => pElement e' <> None) before /\
    pElement e = None /\
    (state e = STATE_REQUESTED \/ state e = STATE_PREFETCHED) /\
    Release_pointer None f c =
      (tt,
       if bool_decide (state e = STATE_REQUESTED) || f
       then {| m_entries := before ++ after;
               backing := Unload (handle e) (backing c);
               calls := calls c ++ [CallUnload (handle e)] |}
       else c).
Proof.
  intros c Hin Hnull.
  assert (entries_ok (m_entries c)) as Hok.
  { apply run_entries_ok, entries_ok_nil. }
  destruct (find_if_finds (pointer_equals None) (m_entries c) e0 Hin)
    as (before & e & after & Hf).
  { unfold pointer_equals. by apply bool_decide_eq_true. }
  exists before, e, after.
  pose proof (find_if_split _ _ _ _ Hf) as Hl.
  pose proof (find_if_here _ _ _ _ _ Hf) as He.
  unfold pointer_equals in He. apply bool_decide_eq_true in He.
  pose proof (found_resolved_ok _ _ _ _ Hok Hl) as Hr.
  unfold resolved_ok in Hr. rewrite He in Hr.
  split; [done|]. split.
  { eapply Forall_impl; [by eapply find_if_before|].
    intros e' He'. unfold pointer_equals in He'. simpl in He'.
    by apply bool_decide_eq_false in He'. }
  split; [done|]. split.
  { destruct (state e); auto; done. }
  unfold Release_pointer. unfold_monad. rewrite Hf.
  destruct f.
  - rewrite orb_true_r. apply Release_entry_forced.
  - rewrite orb_false_r. case_bool_decide as Hs.
    + by apply Release_entry_requested.
    + apply Release_entry_not_held. destruct (state e); auto; done.
Qed.

(** ** [Request] without room *)

(** C5. When [Request(k)] answers [false], the key had no entry, the answer
    is the [false] of [MakeRoomForNewEntry(k)], whose last call of
    [HasRoomFor(k)] said no, the cache is left as room-making left it, with
    no call of [Load], and it has no entry for the key. *)
Theorem Request_false_without_room k c c' :
  Request k c = (false, c') ->
  (k ∉ keys (m_entries c)) /\
  MakeRoomForNewEntry k c = (false, c') /\
  (exists earlier, calls c' = earlier ++ [CallHasRoomFor k false]) /\
  (k ∉ keys (m_entries c')).
Proof.
  unfold Request. unfold_monad.
  destruct (find_if (key_equals k) (m_entries c)) as [before [|e after]] eqn:Hf.
  - apply find_key_absent in Hf.
    pose proof (MakeRoomForNewEntry_sublist k c) as Hsub.
    pose proof (MakeRoomForNewEntry_last_call k c) as Hlast.
    unfold Fetch. unfold_monad.
    destruct (MakeRoomForNewEntry k c) as [[] c1]; simpl in *.
    { destruct (Load k (backing c1)) as [h b']. simpl. by intros [= ? ?]. }
    intros [= <-]. split; [done|]. split; [done|]. split.
    + exact Hlast.
    + intros Hin. apply Hf. eapply elem_of_sublist; [exact Hin|].
      unfold keys. by apply fmap_sublist.
  - destruct (state e); simpl.
    + by intros [= ? ?].
    + destruct (GetElement (handle e) (backing c)) as [[q|] b']; simpl;
        by intros [= ? ?].
    + by intros [= ? ?].
    + unfold Reload. by intros [= ? ?].
Qed.

(** ** [IsEmpty] and [Clear] *)

(** C2. The value [IsEmpty] computes, [m_entries.empty()], is [true] exactly
    when the list has no entry; but it stays in the local [empty]: whatever
    the cache, the function hands no value back. *)
Theorem IsEmpty_returns_nothing c :
  (IsEmpty_empty c = true <-> m_entries c = []) /\ IsEmpty c = None.
Proof.
  split; [|done]. unfold IsEmpty_empty. by destruct (m_entries c).
Qed.

(** C7. [Clear()] leaves the list empty whatever the states of the entries
    were, and its calls to the backing store are one [Unload] for each entry
    there was, on that entry's handle, from the head on, and nothing else.
    The value [IsEmpty] computes afterwards is [true], and [IsEmpty] still
    hands no value back. *)
Theorem Clear_unloads_everything c :
  Clear c =
    (tt, {| m_entries := [];
            backing := unload_all (m_entries c) (backing c);
            calls := calls c ++ (CallUnload <$> handles (m_entries c)) |}) /\
  IsEmpty_empty (Clear c).2 = true /\
  IsEmpty (Clear c).2 = None.
Proof.
  unfold Clear. unfold_monad. by rewrite Clear_loop_spec.
Qed.

(** * Further properties of the lifecycle operations *)

(** ** Looking up a key *)

Lemma find_if_app_here pred before e after :
  Forall (fun e' => pred e' = false) before -> pred e = true ->
  find_if pred (before ++ e :: after) = (before, e :: after).
Proof.
  intros Hb He. induction Hb as [|e' before He' _ IH]; simpl.
  - by rewrite He.
  - by rewrite He', IH.
Qed.

Lemma find_if_none pred l :
  Forall (fun e => pred e = false) l -> find_if pred l = (l, []).
Proof.
  intros Hl. induction Hl as [|e l He _ IH]; simpl; [done|].
  by rewrite He, IH.
Qed.

Lemma key_equals_false k l :
  k ∉ keys l -> Forall (fun e => key_equals k e = false) l.
Proof.
  intros Hk. apply Forall_forall. intros e He.
  unfold key_equals. apply bool_decide_eq_false. intros <-.
  apply Hk. unfold keys. apply list_elem_of_fmap. by exists e.
Qed.

Lemma find_key_none k l :
  k ∉ keys l -> find_if (key_equals k) l = (l, []).
Proof. intros Hk. by apply find_if_none, key_equals_false. Qed.

Lemma keys_split_NoDup before e after :
  NoDup (keys (before ++ e :: after)) ->
  (key e ∉ keys before) /\ (key e ∉ keys after).
Proof.
  unfold keys. rewrite fmap_app, fmap_cons.
  intros (_ & Hdisj & Hnd)%NoDup_app. apply NoDup_cons in Hnd as [Ha _].
  split; [|done]. intros Hin. apply (Hdisj _ Hin). apply list_elem_of_here.
Qed.

Lemma find_key_moved before e e' after :
  NoDup (keys (before ++ e :: after)) -> key e' = key e ->
  find_if (key_equals (key e)) (before ++ after ++ [e'])
  = (before ++ after, [e']).
Proof.
  intros [Hb Ha]%keys_split_NoDup Hk.
  rewrite app_assoc. apply find_if_app_here.
  - apply key_equals_false. unfold keys in *. rewrite fmap_app.
    intros [?|?]%elem_of_app; done.
  - unfold key_equals. by apply bool_decide_eq_true.
Qed.

Lemma find_key_erased before e after :
  NoDup (keys (before ++ e :: after)) -> key e ∉ keys (before ++ after).
Proof.
  intros [Hb Ha]%keys_split_NoDup. unfold keys in *. rewrite fmap_app.
  intros [?|?]%elem_of_app; done.
Qed.

Lemma NoDup_keys_first k l before e after e0 :
  NoDup (keys l) -> find_if (key_equals k) l = (before, e :: after) ->
  e0 ∈ l -> key e0 = k -> e0 = e.
Proof.
  intros Hnd Hf Hin Hk.
  pose proof (find_if_split _ _ _ _ Hf) as ->.
  pose proof (find_key_here _ _ _ _ _ Hf) as He.
  destruct (keys_split_NoDup _ _ _ Hnd) as [Hb Ha].
  apply elem_of_app in Hin as [Hin|Hin].
  - exfalso. apply Hb. unfold keys. apply list_elem_of_fmap.
    exists e0. split; [congruence|done].
  - apply elem_of_cons in Hin as [->|Hin]; [done|].
    exfalso. apply Ha. unfold keys. apply list_elem_of_fmap.
    exists e0. split; [congruence|done].
Qed.

Lemma reached_entries_ok (ops : list Op) (b : B) :
  entries_ok (m_entries (run ops (new_Cache b))).
Proof. apply run_entries_ok, entries_ok_nil. Qed.

Lemma Get_IsCached_absent k c :
  k ∉ keys (m_entries c) -> Get k c = (None, c) /\ IsCached k c = false.
Proof.
  intros Hf%find_key_none. unfold Get, IsCached. unfold_monad. by rewrite Hf.
Qed.

(** X1. A key that has no entry is not an error anywhere: [Get] answers
    null, [Release] does nothing whatever [forceEviction] is, [IsCached] is
    false, and none of them calls the backing store or changes the cache. *)
Theorem absent_key_neutral k c f :
  k ∉ keys (m_entries c) ->
  Get k c = (None, c) /\ Release k f c = (tt, c) /\ IsCached k c = false.
Proof.
  intros Hf%find_key_none.
  unfold Get, Release, IsCached. unfold_monad. by rewrite Hf.
Qed.

(** X2. In a cache reached from a new one, [IsCached(k)] is true exactly
    when the list has an entry for [k] whose state is available or
    released; a requested or prefetched entry, or none, gives false. *)
Theorem IsCached_iff (ops : list Op) (b : B) k :
  let c := run ops (new_Cache b) in
  IsCached k c = true <->
  exists e, e ∈ m_entries c /\ key e = k /\
            (state e = STATE_AVAILABLE \/ state e = STATE_RELEASED).
Proof.
  intros c. destruct (reached_entries_ok ops b) as [Hnd _]. fold c in Hnd.
  unfold IsCached.
  destruct (find_if (key_equals k) (m_entries c)) as [before [|e after]] eqn:Hf.
  - split; [done|]. intros (e & Hin & Hk & _).
    apply find_key_absent in Hf. exfalso. apply Hf.
    unfold keys. apply list_elem_of_fmap. by exists e.
  - split.
    + intros Hs. exists e. split.
      { rewrite (find_if_split _ _ _ _ Hf). apply elem_of_app. right.
        apply list_elem_of_here. }
      split; [by eapply find_key_here|].
      apply orb_true_iff in Hs as [Hs|Hs]; apply bool_decide_eq_true in Hs;
        auto.
    + intros (e0 & Hin & Hk & Hs).
      rewrite (NoDup_keys_first k _ _ _ _ e0 Hnd Hf Hin Hk) in Hs.
      apply orb_true_iff.
      destruct Hs as [Hs|Hs]; [left|right]; by apply bool_decide_eq_true.
Qed.

(** ** Releasing *)

(** X3. In a cache reached from a new one, [Release(k)] on an entry that is
    requested, or on any entry with [forceEviction], unloads the entry's
    handle, once, and erases the entry: the other entries stay as they are
    and in their order, the key has no entry left, [IsCached(k)] is false
    and [Get(k)] answers null. *)
Theorem Release_removes (ops : list Op) (b : B) k f before e after :
  let c := run ops (new_Cache b) in
  (Find k c).1 = (before, e :: after) ->
  state e = STATE_REQUESTED \/ f = true ->
  Release k f c =
    (tt, {| m_entries := before ++ after;
            backing := Unload (handle e) (backing c);
            calls := calls c ++ [CallUnload (handle e)] |}) /\
  (k ∉ keys (m_entries (Release k f c).2)) /\
  IsCached k (Release k f c).2 = false /\
  (Get k (Release k f c).2).1 = None.
Proof.
  intros c Hf Hs. destruct (reached_entries_ok ops b) as [Hnd _]. fold c in Hnd.
  simpl in Hf.
  assert (Release k f c =
    (tt, {| m_entries := before ++ after;
            backing := Unload (handle e) (backing c);
            calls := calls c ++ [CallUnload (handle e)] |})) as HR.
  { unfold Release. unfold_monad. rewrite Hf.
    destruct Hs as [Hs| ->].
    - by apply Release_entry_requested.
    - apply Release_entry_forced. }
  rewrite HR. split; [done|]. simpl.
  assert (k ∉ keys (before ++ after)) as Hk.
  { rewrite <- (find_key_here _ _ _ _ _ Hf). apply find_key_erased.
    by rewrite <- (find_if_split _ _ _ _ Hf). }
  split; [done|].
  set (c' := {| m_entries := before ++ after;
                backing := Unload (handle e) (backing c);
                calls := calls c ++ [CallUnload (handle e)] |}).
  destruct (Get_IsCached_absent k c') as (HG & HI); [done|].
  by rewrite HG, HI.
Qed.

(** X4. In a cache reached from a new one, releasing an available entry
    without [forceEviction] and requesting its key again gives the entry
    back exactly as it was, now at the tail of the list; the two calls
    together make no call to the backing store. *)
Theorem Release_then_Request (ops : list Op) (b : B) k before e after :
  let c := run ops (new_Cache b) in
  (Find k c).1 = (before, e :: after) ->
  state e = STATE_AVAILABLE ->
  Request k (Release k false c).2 =
    (true, {| m_entries := before ++ after ++ [e];
              backing := backing c;
              calls := calls c |}).
Proof.
  intros c Hf Hs. destruct (reached_entries_ok ops b) as [Hnd _]. fold c in Hnd.
  simpl in Hf.
  pose proof (find_if_split _ _ _ _ Hf) as Hl.
  pose proof (find_key_here _ _ _ _ _ Hf) as Hk.
  rewrite Hl in Hnd.
  unfold Release, Release_entry, Request. unfold_monad. rewrite Hf, Hs. simpl.
  rewrite <- Hk.
  rewrite (find_key_moved before e (set_state STATE_RELEASED e) after Hnd eq_refl).
  simpl. unfold Reload. simpl. rewrite <- app_assoc.
  destruct e as [ke se he pe]. simpl in *. by subst.
Qed.

(** X5. In a cache reached from a new one, [Get(k)] answers an element
    exactly when [IsCached(k)] is true once it has returned. *)
Theorem Get_some_iff_IsCached (ops : list Op) (b : B) k :
  let c := run ops (new_Cache b) in
  (Get k c).1 <> None <-> IsCached k (Get k c).2 = true.
Proof.
  intros c. pose proof (reached_entries_ok ops b) as Hok. fold c in Hok.
  unfold Get, IsCached. unfold_monad.
  destruct (find_if (key_equals k) (m_entries c)) as [before [|e after]] eqn:Hf.
  - simpl. rewrite Hf. done.
  - pose proof (found_resolved_ok _ _ _ _ Hok (find_if_split _ _ _ _ Hf)) as He.
    pose proof (find_if_before _ _ _ _ Hf) as Hb.
    pose proof (find_if_here _ _ _ _ _ Hf) as Hh.
    unfold resolved_ok in He.
    destruct (state e) eqn:Hs; simpl.
    + destruct (GetElement (handle e) (backing c)) as [[q|] b']; simpl.
      * rewrite find_if_app_here; [done|done|].
        unfold key_equals in *. done.
      * rewrite Hf, Hs. simpl. by destruct (pElement e).
    + rewrite Hf, Hs. simpl. by destruct (pElement e).
    + rewrite Hf, Hs. simpl. by destruct (pElement e).
    + rewrite Hf, Hs. simpl. by destruct (pElement e).
Qed.

(** X6. In a cache reached from a new one, [Release] by the address of an
    element does what [Release] by key does for the key of the first entry
    that holds this address, and nothing when no entry holds it. *)
Theorem Release_pointer_as_key (ops : list Op) (b : B) p f :
  let c := run ops (new_Cache b) in
  match (Find_pointer p c).1 with
  | (_, []) => Release_pointer p f c = (tt, c)
  | (_, e :: _) => Release_pointer p f c = Release (key e) f c
  end.
Proof.
  intros c. destruct (reached_entries_ok ops b) as [Hnd _]. fold c in Hnd.
  unfold Release_pointer, Release. unfold_monad.
  destruct (find_if (pointer_equals p) (m_entries c))
    as [before [|e after]] eqn:Hf; [done|].
  pose proof (find_if_split _ _ _ _ Hf) as Hl.
  rewrite Hl in Hnd. destruct (keys_split_NoDup _ _ _ Hnd) as [Hb _].
  rewrite Hl, find_if_app_here; [done| |].
  - by apply key_equals_false.
  - unfold key_equals. by apply bool_decide_eq_true.
Qed.

(** ** Requesting and prefetching *)

Lemma Fetch_result k s c :
  Fetch k s c =
    (if (MakeRoomForNewEntry k c).1
     then
       let (h, b') := Load k (backing (MakeRoomForNewEntry k c).2) in
       ((m_entries (MakeRoomForNewEntry k c).2, [new_Entry k h s]),
        {| m_entries := m_entries (MakeRoomForNewEntry k c).2 ++ [new_Entry k h s];
           backing := b';
           calls := calls (MakeRoomForNewEntry k c).2 ++ [CallLoad k h] |})
     else
       ((m_entries (MakeRoomForNewEntry k c).2, []),
        (MakeRoomForNewEntry k c).2)).
Proof.
  unfold Fetch. unfold_monad.
  destruct (MakeRoomForNewEntry k c) as [[] c1]; simpl; [|done].
  by destruct (Load k (backing c1)) as [h b'].
Qed.

Lemma MakeRoomForNewEntry_keeps_absent k c :
  k ∉ keys (m_entries c) -> k ∉ keys (m_entries (MakeRoomForNewEntry k c).2).
Proof.
  intros Hk Hin. apply Hk. eapply elem_of_sublist; [exact Hin|].
  unfold keys. apply fmap_sublist, MakeRoomForNewEntry_sublist.
Qed.

(** X7. For a key that has no entry, [Request] and [Prefetch] first make
    room.  When room-making answers yes, [Load] is called, once, and an
    entry with the handle it returned, a null element pointer and the state
    requested (for [Request]) or prefetched (for [Prefetch]) is appended
    behind all the entries that are left, and [Request] answers [true].
    When it answers no, nothing is loaded and no entry is added: the cache
    is left as room-making left it, and [Request] answers [false]. *)
Theorem absent_key_loads k c :
  k ∉ keys (m_entries c) ->
  let m := MakeRoomForNewEntry k c in
  Request k c =
    (if m.1
     then
       let (h, b') := Load k (backing m.2) in
       (true,
        {| m_entries :=
             m_entries m.2
             ++ [{| key := k; state := STATE_REQUESTED; handle := h;
                    pElement := None |}];
           backing := b';
           calls := calls m.2 ++ [CallLoad k h] |})
     else (false, m.2)) /\
  Prefetch k c =
    (tt,
     if m.1
     then
       let (h, b') := Load k (backing m.2) in
       {| m_entries :=
            m_entries m.2
            ++ [{| key := k; state := STATE_PREFETCHED; handle := h;
                   pElement := None |}];
          backing := b';
          calls := calls m.2 ++ [CallLoad k h] |}
     else m.2).
Proof.
  intros Hf%find_key_none m. unfold Request, Prefetch. unfold_monad.
  rewrite Hf, !Fetch_result. fold m.
  destruct (m.1); simpl; [|done].
  by destruct (Load k (backing m.2)) as [h b'].
Qed.

(** X8. [Request(k)] answers [true] exactly when the key has an entry once
    it has returned. *)
Theorem Request_true_iff_entry k c :
  (Request k c).1 = true <-> k ∈ keys (m_entries (Request k c).2).
Proof.
  unfold Request. unfold_monad.
  destruct (find_if (key_equals k) (m_entries c)) as [before [|e after]] eqn:Hf.
  - apply find_key_absent in Hf.
    pose proof (MakeRoomForNewEntry_keeps_absent k c Hf) as Hk.
    rewrite Fetch_result.
    destruct ((MakeRoomForNewEntry k c).1); simpl.
    + destruct (Load k (backing (MakeRoomForNewEntry k c).2)) as [h b'].
      simpl. split; [intros _|done].
      unfold keys. rewrite fmap_app. apply elem_of_app. right.
      apply list_elem_of_here.
    + split; [done|]. intros Hin. by destruct Hk.
  - pose proof (find_if_split _ _ _ _ Hf) as Hl.
    pose proof (find_key_here _ _ _ _ _ Hf) as Hk.
    assert (forall e', key e' = k -> k ∈ keys (before ++ e' :: after)) as Hin.
    { intros e' <-. unfold keys. rewrite fmap_app, fmap_cons.
      apply elem_of_app. right. apply list_elem_of_here. }
    destruct (state e); simpl.
    + split; [intros _|done]. rewrite Hl. by apply Hin.
    + destruct (GetElement (handle e) (backing c)) as [[q|] b']; simpl;
        (split; [intros _|done]); by apply Hin.
    + split; [intros _|done]. rewrite Hl. by apply Hin.
    + unfold Reload. simpl. split; [intros _|done]. by apply Hin.
Qed.

Lemma other_keys_app k l1 l2 :
  other_keys k (l1 ++ l2) = other_keys k l1 ++ other_keys k l2.
Proof. unfold other_keys. apply List.filter_app. Qed.

Lemma other_keys_cons_same k e l :
  key e = k -> other_keys k (e :: l) = other_keys k l.
Proof.
  intros Hk. unfold other_keys, key_equals. simpl.
  by rewrite bool_decide_eq_true_2.
Qed.

Lemma other_keys_at k before e after :
  key e = k ->
  other_keys k (before ++ e :: after) = other_keys k (before ++ after).
Proof.
  intros Hk. by rewrite !other_keys_app, other_keys_cons_same.
Qed.

Lemma other_keys_to_end k before e after :
  key e = k ->
  other_keys k (before ++ after ++ [e]) = other_keys k (before ++ after).
Proof.
  intros Hk. rewrite !other_keys_app, other_keys_cons_same by done.
  simpl. by rewrite app_nil_r.
Qed.

(** X9. [Request(k)] for a key that has an entry answers [true], evicts
    nothing and loads nothing: the keys and the handles of the list are the
    same, in the same order, the entries of the other keys are untouched,
    and the only call it can make is one [GetElement], on the handle of a
    prefetched entry. *)
Theorem Request_present_frame k c before e after :
  (Find k c).1 = (before, e :: after) ->
  (Request k c).1 = true /\
  keys (m_entries (Request k c).2) = keys (m_entries c) /\
  handles (m_entries (Request k c).2) = handles (m_entries c) /\
  other_keys k (m_entries (Request k c).2) = other_keys k (m_entries c) /\
  (calls (Request k c).2 = calls c \/
   state e = STATE_PREFETCHED /\
   exists p, calls (Request k c).2 = calls c ++ [CallGetElement (handle e) p]).
Proof.
  intros Hf. simpl in Hf.
  pose proof (find_if_split _ _ _ _ Hf) as Hl.
  pose proof (find_key_here _ _ _ _ _ Hf) as Hk.
  assert (forall e', key e' = key e -> handle e' = handle e ->
            keys (before ++ e' :: after) = keys (m_entries c) /\
            handles (before ++ e' :: after) = handles (m_entries c) /\
            other_keys k (before ++ e' :: after) = other_keys k (m_entries c))
    as Hsame.
  { intros e' Hk' Hh'. rewrite Hl. unfold keys, handles.
    rewrite !fmap_app, !fmap_cons, Hk', Hh'. split; [done|]. split; [done|].
    rewrite !other_keys_at; [done|done|congruence]. }
  unfold Request. unfold_monad. rewrite Hf.
  destruct (state e) eqn:Hs; simpl.
  - repeat split; auto.
  - destruct (GetElement (handle e) (backing c)) as [[q|] b']; simpl;
      (split; [done|]);
      (match goal with
       | |- context [before ++ ?e' :: after] =>
           destruct (Hsame e' eq_refl eq_refl) as (-> & -> & ->)
       end);
      repeat split; right; (split; [done|]); by eexists.
  - repeat split; auto.
  - unfold Reload. simpl. split; [done|].
    destruct (Hsame (set_state STATE_AVAILABLE e) eq_refl eq_refl)
      as (-> & -> & ->).
    repeat split; auto.
Qed.

(** X10. In a cache reached from a new one, [Request(k)] on a prefetched
    entry asks [GetElement] for the entry's handle, once.  With an element
    the entry becomes available and holds its address; without, it becomes
    requested; either way it stays where it is and the answer is [true].
    [IsCached(k)] is true afterwards exactly when there was an element. *)
Theorem Request_prefetched (ops : list Op) (b : B) k before e after :
  let c := run ops (new_Cache b) in
  (Find k c).1 = (before, e :: after) ->
  state e = STATE_PREFETCHED ->
  Request k c =
    (let (p, b') := GetElement (handle e) (backing c) in
     (true,
      {| m_entries :=
           before
           ++ {| key := key e;
                 state := match p with
                          | Some _ => STATE_AVAILABLE
                          | None => STATE_REQUESTED
                          end;
                 handle := handle e; pElement := p |} :: after;
         backing := b';
         calls := calls c ++ [CallGetElement (handle e) p] |})) /\
  (IsCached k (Request k c).2 = true <->
   (GetElement (handle e) (backing c)).1 <> None).
Proof.
  intros c Hf Hs. pose proof (reached_entries_ok ops b) as Hok. fold c in Hok.
  simpl in Hf.
  pose proof (found_resolved_ok _ _ _ _ Hok (find_if_split _ _ _ _ Hf)) as He.
  pose proof (find_if_before _ _ _ _ Hf) as Hb.
  pose proof (find_if_here _ _ _ _ _ Hf) as Hh.
  unfold resolved_ok in He. rewrite Hs in He.
  destruct (pElement e) eqn:Hp; [done|].
  unfold Request, IsCached. unfold_monad. rewrite Hf, Hs.
  destruct (GetElement (handle e) (backing c)) as [[q|] b']; simpl.
  - split; [done|]. rewrite find_if_app_here; [done|done|].
    unfold key_equals in *. done.
  - unfold set_state. rewrite Hp. split; [done|].
    rewrite find_if_app_here; [done|done|].
    unfold key_equals in *. done.
Qed.

(** X11. [Prefetch(k)] for a key that has an entry makes no call to the
    backing store and changes no entry.  A requested or available entry is
    left alone; a prefetched or released entry is moved behind all the
    others, so that it is the last to be evicted. *)
Theorem Prefetch_present k c before e after :
  (Find k c).1 = (before, e :: after) ->
  Prefetch k c =
    (tt,
     match state e with
     | STATE_REQUESTED | STATE_AVAILABLE => c
     | STATE_PREFETCHED | STATE_RELEASED =>
         {| m_entries := before ++ after ++ [e];
            backing := backing c;
            calls := calls c |}
     end) /\
  m_entries (Prefetch k c).2 ≡ₚ m_entries c /\
  other_keys k (m_entries (Prefetch k c).2) = other_keys k (m_entries c).
Proof.
  intros Hf. simpl in Hf.
  pose proof (find_if_split _ _ _ _ Hf) as Hl.
  pose proof (find_key_here _ _ _ _ _ Hf) as Hk.
  assert (before ++ after ++ [e] ≡ₚ m_entries c) as Hperm.
  { rewrite Hl. apply Permutation_app_head. symmetry.
    apply Permutation_cons_append. }
  assert (other_keys k (before ++ after ++ [e]) = other_keys k (m_entries c))
    as Hother.
  { by rewrite Hl, other_keys_to_end, other_keys_at. }
  unfold Prefetch. unfold_monad. rewrite Hf.
  destruct (state e); simpl; done.
Qed.

(** X12. In a cache reached from a new one, [Prefetch(k)] never changes
    what [IsCached(k)] answers: prefetching alone makes nothing available. *)
Theorem Prefetch_keeps_IsCached (ops : list Op) (b : B) k :
  let c := run ops (new_Cache b) in
  IsCached k (Prefetch k c).2 = IsCached k c.
Proof.
  intros c. destruct (reached_entries_ok ops b) as [Hnd _]. fold c in Hnd.
  unfold Prefetch, IsCached. unfold_monad.
  destruct (find_if (key_equals k) (m_entries c)) as [before [|e after]] eqn:Hf.
  - apply find_key_absent in Hf.
    pose proof (MakeRoomForNewEntry_keeps_absent k c Hf) as Hk.
    rewrite Fetch_result.
    destruct ((MakeRoomForNewEntry k c).1); simpl.
    + destruct (Load k (backing (MakeRoomForNewEntry k c).2)) as [h b'].
      simpl. rewrite find_if_app_here; [done| |].
      * by apply key_equals_false.
      * unfold key_equals. by apply bool_decide_eq_true.
    + by rewrite (find_key_none _ _ Hk).
  - pose proof (find_if_split _ _ _ _ Hf) as Hl.
    pose proof (find_key_here _ _ _ _ _ Hf) as Hk.
    rewrite Hl in Hnd. subst k.
    destruct (state e) eqn:Hs; simpl; rewrite ?Hf, ?Hs; try done;
      by rewrite (find_key_moved before e e after Hnd eq_refl), Hs.
Qed.

(** X13. [Get(k)] and [Release(k)] leave the entries of every other key as
    they are and in their order, whatever the cache and [forceEviction]. *)
Theorem other_keys_untouched k f c :
  other_keys k (m_entries (Get k c).2) = other_keys k (m_entries c) /\
  other_keys k (m_entries (Release k f c).2) = other_keys k (m_entries c).
Proof.
  unfold Get, Release, Release_entry. unfold_monad.
  destruct (find_if (key_equals k) (m_entries c)) as [before [|e after]] eqn:Hf;
    [done|].
  pose proof (find_if_split _ _ _ _ Hf) as Hl.
  pose proof (find_key_here _ _ _ _ _ Hf) as Hk.
  split.
  - case_bool_decide; simpl; [|done].
    destruct (GetElement (handle e) (backing c)) as [[q|] b']; simpl; [|done].
    by rewrite Hl, !other_keys_at.
  - destruct (bool_decide (state e = STATE_REQUESTED) || f); simpl.
    { by rewrite Hl, other_keys_at. }
    case_bool_decide; simpl; [|done].
    by rewrite Hl, other_keys_to_end, other_keys_at.
Qed.

(** ** [Clear] and room-making *)

(** X14. After [Clear()] no key is cached or can be got, and a second
    [Clear()] has nothing to unload: it makes no call and changes
    nothing. *)
Theorem Clear_resets c k :
  IsCached k (Clear c).2 = false /\
  Get k (Clear c).2 = (None, (Clear c).2) /\
  Clear (Clear c).2 = (tt, (Clear c).2).
Proof.
  unfold Clear. unfold_monad. rewrite Clear_loop_spec by done. simpl.
  split; [done|]. split; done.
Qed.

(** X15. When [HasRoomFor(key)] says yes at once, [MakeRoomForNewEntry]
    evicts nothing: the entry list is unchanged, and its only calls are that
    check and the final one, whose value it returns. *)
Theorem MakeRoomForNewEntry_with_room k c b' :
  HasRoomFor k (backing c) = (true, b') ->
  MakeRoomForNewEntry k c =
    (let (r, b'') := HasRoomFor k b' in
     (r, {| m_entries := m_entries c;
            backing := b'';
            calls := calls c ++ [CallHasRoomFor k true; CallHasRoomFor k r] |})).
Proof.
  intros Hroom. unfold MakeRoomForNewEntry. unfold_monad.
  destruct (m_entries c) as [|e l] eqn:Hl; simpl; unfold_monad;
    rewrite Hroom; simpl; destruct (HasRoomFor k b') as [r b''];
    by rewrite Hl, <- app_assoc.
Qed.

Lemma MakeRoom_loop_last_check k rest : forall before c,
  m_entries c = before ++ rest ->
  exists scanned unscanned room b0 c',
    MakeRoom_loop k before rest c = (tt, c') /\
    rest = scanned ++ unscanned /\
    (room = false -> unscanned = []) /\
    m_entries c' = before ++ kept scanned ++ unscanned /\
    HasRoomFor k b0 = (room, backing c').
Proof.
  induction rest as [|e after IH]; intros before c Hc; simpl; unfold_monad.
  - destruct (HasRoomFor k (backing c)) as [room b'] eqn:Hroom.
    exists [], [], room, (backing c). eexists. split; [done|]. simpl.
    by rewrite Hc.
  - destruct (HasRoomFor k (backing c)) as [room b'] eqn:Hroom.
    destruct room.
    { exists [], (e :: after), true, (backing c). eexists. split; [done|].
      simpl. by rewrite Hc. }
    destruct (evictable e) eqn:Hev.
    + set (c2 := {| m_entries := before ++ after;
                    backing := Unload (handle e) b';
                    calls := (calls c ++ [CallHasRoomFor k false])
                             ++ [CallUnload (handle e)] |}).
      destruct (IH before c2 eq_refl)
        as (scanned & unscanned & room & b0 & c' & Hrun & -> & Hend & Hl & Hlast).
      exists (e :: scanned), unscanned, room, b0, c'.
      split.
      { unfold evictable in Hev. destruct (state e); try done; exact Hrun. }
      split; [done|]. split; [done|]. split; [|done].
      unfold kept in *. simpl. by rewrite Hev.
    + set (c1 := {| m_entries := m_entries c; backing := b';
                    calls := calls c ++ [CallHasRoomFor k false] |}).
      assert (m_entries c1 = (before ++ [e]) ++ after) as Hc1.
      { simpl. rewrite Hc. by rewrite <- app_assoc. }
      destruct (IH (before ++ [e]) c1 Hc1)
        as (scanned & unscanned & room & b0 & c' & Hrun & -> & Hend & Hl & Hlast).
      exists (e :: scanned), unscanned, room, b0, c'.
      split.
      { unfold evictable in Hev. destruct (state e); try done; exact Hrun. }
      split; [done|]. split; [done|]. split; [|done].
      rewrite Hl. unfold kept. simpl. rewrite Hev. simpl.
      by rewrite <- app_assoc.
Qed.

Lemma kept_not_evictable l : Forall (fun e => evictable e = false) (kept l).
Proof.
  apply Forall_forall. intros e He. unfold kept in He.
  apply list_elem_of_In, filter_In in He as [_ He].
  by apply negb_true_iff.
Qed.

(** X16. With a backing store whose [HasRoomFor] is a predicate (it reads
    the store's data and leaves it alone), a [Request] that answers [false]
    has evicted every released and every prefetched entry on the way: the
    entries left are the requested and available ones, in their order. *)
Theorem Request_false_flushes k c :
  (forall b0, (HasRoomFor k b0).2 = b0) ->
  (Request k c).1 = false ->
  m_entries (Request k c).2 = kept (m_entries c) /\
  Forall (fun e => state e = STATE_REQUESTED \/ state e = STATE_AVAILABLE)
    (m_entries (Request k c).2).
Proof.
  intros Hpure Hfalse.
  assert (m_entries (Request k c).2 = kept (m_entries c)) as Hl.
  { revert Hfalse. unfold Request. unfold_monad.
    destruct (find_if (key_equals k) (m_entries c))
      as [before [|e after]] eqn:Hf.
    - rewrite Fetch_result.
      destruct (MakeRoom_loop_last_check k (m_entries c) [] c eq_refl)
        as (scanned & unscanned & room & b0 & c1 & Hrun & Hsplit & Hend & Hl
            & Hlast).
      unfold MakeRoomForNewEntry. unfold_monad. rewrite Hrun. simpl in *.
      pose proof (Hpure b0) as Hb0. rewrite Hlast in Hb0. simpl in Hb0.
      rewrite Hb0, Hlast. simpl.
      destruct room; simpl.
      { destruct (Load k (backing c1)). simpl. done. }
      intros _. rewrite Hl, Hsplit, (Hend eq_refl), !app_nil_r. done.
    - destruct (state e); simpl; try done.
      by destruct (GetElement (handle e) (backing c)) as [[q|] b']. }
  split; [done|]. rewrite Hl.
  eapply Forall_impl; [apply kept_not_evictable|].
  intros e He. unfold evictable in He. destruct (state e); auto; done.
Qed.

(** ** What holds of every cache reached from a new one *)

(** X17. In a cache reached from a new one, the element pointer of an entry
    is null while the entry is requested or prefetched, and not null once it
    is available or released. *)
Theorem reached_resolved (ops : list Op) (b : B) :
  Forall
    (fun e =>
       match state e with
       | STATE_REQUESTED | STATE_PREFETCHED => pElement e = None
       | STATE_AVAILABLE | STATE_RELEASED => pElement e <> None
       end)
    (m_entries (run ops (new_Cache b))).
Proof.
  destruct (reached_entries_ok ops b) as [_ Hall].
  eapply Forall_impl; [exact Hall|].
  intros e He. unfold resolved_ok in He.
  by destruct (state e), (pElement e).
Qed.

Lemma count_calls_app f (l1 l2 : list (@Call Key Handle Ptr)) :
  count_calls f (l1 ++ l2) = count_calls f l1 + count_calls f l2.
Proof. unfold count_calls. by rewrite List.filter_app, length_app. Qed.

Lemma scan_calls_counts k (scanned : list Entry') :
  count_calls is_Load (scan_calls k scanned) = 0 /\
  count_calls is_Unload (scan_calls k scanned) + length (kept scanned)
  = length scanned.
Proof.
  unfold count_calls, scan_calls, kept.
  induction scanned as [|e l [IH1 IH2]]; simpl; [done|].
  destruct (evictable e); simpl; rewrite ?List.filter_app, ?length_app;
    simpl; split; lia.
Qed.

Lemma sourced_mono cs more e : sourced cs e -> sourced (cs ++ more) e.
Proof.
  intros [Hl Hg]. split.
  - apply elem_of_app. by left.
  - intros q Hq. apply elem_of_app. left. by apply Hg.
Qed.

Lemma sourced_keep cs more e e' :
  key e' = key e -> handle e' = handle e -> pElement e' = pElement e ->
  sourced cs e -> sourced (cs ++ more) e'.
Proof.
  intros Hk Hh Hp He. apply (sourced_mono cs more) in He.
  unfold sourced in *. by rewrite Hk, Hh, Hp.
Qed.

Lemma sourced_got cs e s q :
  sourced cs e ->
  sourced (cs ++ [CallGetElement (handle e) (Some q)])
    (set_state s (set_pElement (Some q) e)).
Proof.
  intros [Hl _]. split; simpl.
  - apply elem_of_app. by left.
  - intros q' [= <-]. apply elem_of_app. right. apply list_elem_of_here.
Qed.

Lemma Forall_sourced_mono cs more l :
  Forall (sourced cs) l -> Forall (sourced (cs ++ more)) l.
Proof.
  intros Hall. eapply Forall_impl; [exact Hall|]. intros e. apply sourced_mono.
Qed.

Lemma accounted_step c c' more :
  accounted c ->
  calls c' = calls c ++ more ->
  count_calls is_Load more + length (m_entries c)
  = count_calls is_Unload more + length (m_entries c') ->
  Forall (sourced (calls c')) (m_entries c') ->
  accounted c'.
Proof.
  intros [Hbal _] Hcalls Hcount Hall. split; [|done].
  unfold balanced in *. rewrite Hcalls, !count_calls_app. lia.
Qed.

Lemma MakeRoomForNewEntry_calls k c :
  exists scanned unscanned room,
    m_entries c = scanned ++ unscanned /\
    m_entries (MakeRoomForNewEntry k c).2 = kept scanned ++ unscanned /\
    calls (MakeRoomForNewEntry k c).2
    = calls c
      ++ scan_calls k scanned
      ++ [CallHasRoomFor k room; CallHasRoomFor k (MakeRoomForNewEntry k c).1].
Proof.
  destruct (MakeRoom_loop_scan k (m_entries c) [] c eq_refl)
    as (scanned & unscanned & room & c' & Hrun & Hsplit & _ & Hl & Hcalls).
  exists scanned, unscanned, room.
  unfold MakeRoomForNewEntry. unfold_monad. rewrite Hrun.
  destruct (HasRoomFor k (backing c')) as [r b'']. simpl.
  split; [done|]. split; [done|].
  rewrite Hcalls. by rewrite <- !app_assoc.
Qed.

Lemma MakeRoomForNewEntry_accounted k c :
  accounted c -> accounted (MakeRoomForNewEntry k c).2.
Proof.
  intros Hacc.
  destruct (MakeRoomForNewEntry_calls k c)
    as (scanned & unscanned & room & Hsplit & Hl & Hcalls).
  eapply accounted_step; [exact Hacc|exact Hcalls| |].
  - destruct (scan_calls_counts k scanned) as [H1 H2].
    rewrite !count_calls_app, H1, Hl, Hsplit, !length_app.
    unfold count_calls at 1 3. simpl. lia.
  - rewrite Hcalls. apply Forall_sourced_mono.
    destruct Hacc as [_ Hall]. apply Forall_forall. intros e He.
    eapply Forall_forall in Hall; [exact Hall|].
    eapply elem_of_sublist; [exact He|apply MakeRoomForNewEntry_sublist].
Qed.

Lemma Fetch_accounted k s c : accounted c -> accounted (Fetch k s c).2.
Proof.
  intros Hacc%(MakeRoomForNewEntry_accounted k). rewrite Fetch_result.
  destruct ((MakeRoomForNewEntry k c).1); simpl; [|done].
  destruct (Load k (backing (MakeRoomForNewEntry k c).2)) as [h b'].
  eapply (accounted_step _ _ [CallLoad k h]); [exact Hacc|done| |]; simpl.
  - rewrite length_app. unfold count_calls. simpl. lia.
  - apply Forall_app. split.
    + apply Forall_sourced_mono. by destruct Hacc.
    + apply Forall_singleton. split; simpl; [|done].
      apply elem_of_app. right. apply list_elem_of_here.
Qed.

Lemma accounted_replace c before e e' after (b' : B) more :
  accounted c ->
  m_entries c = before ++ e :: after ->
  count_calls is_Load more = 0 -> count_calls is_Unload more = 0 ->
  sourced (calls c ++ more) e' ->
  accounted {| m_entries := before ++ e' :: after;
               backing := b';
               calls := calls c ++ more |}.
Proof.
  intros Hacc Hl H1 H2 He'.
  eapply (accounted_step c _ more); [exact Hacc|done| |]; simpl.
  - rewrite Hl, !length_app. simpl. lia.
  - destruct Hacc as [_ Hall]. rewrite Hl in Hall.
    apply Forall_app in Hall as [Hb Ha]. apply Forall_cons in Ha as [_ Ha].
    apply Forall_app. split; [by apply Forall_sourced_mono|].
    apply Forall_cons. split; [done|by apply Forall_sourced_mono].
Qed.

Lemma accounted_to_end c before e e' after :
  accounted c ->
  m_entries c = before ++ e :: after ->
  key e' = key e -> handle e' = handle e -> pElement e' = pElement e ->
  accounted {| m_entries := before ++ after ++ [e'];
               backing := backing c;
               calls := calls c |}.
Proof.
  intros Hacc Hl Hk Hh Hp.
  eapply (accounted_step c _ []); [exact Hacc|by rewrite app_nil_r| |]; simpl.
  - rewrite Hl, !length_app. simpl. lia.
  - destruct Hacc as [_ Hall]. rewrite Hl in Hall.
    apply Forall_app in Hall as [Hb Ha]. apply Forall_cons in Ha as [He Ha].
    apply Forall_app. split; [done|]. apply Forall_app. split; [done|].
    apply Forall_singleton.
    rewrite <- (app_nil_r (calls c)). by eapply sourced_keep.
Qed.

Lemma accounted_found c before e after :
  accounted c -> m_entries c = before ++ e :: after -> sourced (calls c) e.
Proof.
  intros [_ Hall] Hl. rewrite Hl in Hall.
  apply Forall_app in Hall as [_ Ha]. by apply Forall_cons in Ha as [? _].
Qed.

Lemma Release_entry_accounted before e after f c :
  m_entries c = before ++ e :: after ->
  accounted c -> accounted (Release_entry before e after f c).2.
Proof.
  intros Hl Hacc. unfold Release_entry. unfold_monad.
  destruct (bool_decide (state e = STATE_REQUESTED) || f); simpl.
  - eapply (accounted_step c _ [CallUnload (handle e)]);
      [exact Hacc|done| |]; simpl.
    + rewrite Hl, !length_app. unfold count_calls. simpl. lia.
    + destruct Hacc as [_ Hall]. rewrite Hl in Hall.
      apply Forall_app in Hall as [Hb Ha]. apply Forall_cons in Ha as [_ Ha].
      apply Forall_app. split; by apply Forall_sourced_mono.
  - case_bool_decide; simpl; [|by rewrite ?cache_eta].
    by eapply accounted_to_end.
Qed.

Lemma Request_accounted k c : accounted c -> accounted (Request k c).2.
Proof.
  intros Hacc. unfold Request. unfold_monad.
  destruct (find_if (key_equals k) (m_entries c)) as [before [|e after]] eqn:Hf.
  - pose proof (Fetch_accounted k STATE_REQUESTED c Hacc).
    by destruct (Fetch k STATE_REQUESTED c).
  - pose proof (find_if_split _ _ _ _ Hf) as Hl.
    pose proof (accounted_found _ _ _ _ Hacc Hl) as He.
    destruct (state e); simpl; try (by rewrite ?cache_eta).
    + destruct (GetElement (handle e) (backing c)) as [[q|] b']; simpl.
      * eapply accounted_replace; [exact Hacc|exact Hl|done|done|].
        by apply sourced_got.
      * eapply accounted_replace; [exact Hacc|exact Hl|done|done|].
        by eapply sourced_keep.
    + unfold Reload. simpl.
      rewrite <- (app_nil_r (calls c)).
      eapply accounted_replace; [exact Hacc|exact Hl|done|done|].
      by eapply sourced_keep.
Qed.

Lemma Prefetch_accounted k c : accounted c -> accounted (Prefetch k c).2.
Proof.
  intros Hacc. unfold Prefetch. unfold_monad.
  destruct (find_if (key_equals k) (m_entries c)) as [before [|e after]] eqn:Hf.
  - pose proof (Fetch_accounted k STATE_PREFETCHED c Hacc).
    by destruct (Fetch k STATE_PREFETCHED c).
  - pose proof (find_if_split _ _ _ _ Hf) as Hl.
    destruct (state e); simpl; try (by rewrite ?cache_eta);
      by eapply accounted_to_end.
Qed.

Lemma Get_accounted k c : accounted c -> accounted (Get k c).2.
Proof.
  intros Hacc. unfold Get. unfold_monad.
  destruct (find_if (key_equals k) (m_entries c)) as [before [|e after]] eqn:Hf;
    [by rewrite ?cache_eta|].
  pose proof (find_if_split _ _ _ _ Hf) as Hl.
  pose proof (accounted_found _ _ _ _ Hacc Hl) as He.
  case_bool_decide; simpl; [|by rewrite ?cache_eta].
  destruct (GetElement (handle e) (backing c)) as [[q|] b']; simpl.
  - eapply accounted_replace; [exact Hacc|exact Hl|done|done|].
    by apply sourced_got.
  - eapply (accounted_step c _ [CallGetElement (handle e) None]);
      [exact Hacc|done|done|]. simpl.
    apply Forall_sourced_mono. by destruct Hacc.
Qed.

Lemma unload_calls_counts (hs : list Handle) :
  count_calls is_Load (CallUnload <$> hs : list (@Call Key Handle Ptr)) = 0 /\
  count_calls is_Unload (CallUnload <$> hs : list (@Call Key Handle Ptr))
  = length hs.
Proof.
  unfold count_calls. induction hs as [|h hs [IH1 IH2]]; simpl; [done|].
  split; [done|]. by f_equal.
Qed.

Lemma Clear_accounted c : accounted c -> accounted (Clear c).2.
Proof.
  intros Hacc. unfold Clear. unfold_monad. rewrite Clear_loop_spec by done.
  eapply (accounted_step c _ (CallUnload <$> handles (m_entries c)));
    [exact Hacc|done| |by constructor]; simpl.
  destruct (unload_calls_counts (handles (m_entries c))) as [-> ->].
  unfold handles. rewrite length_fmap. lia.
Qed.

Lemma step_accounted c o : accounted c -> accounted (step c o).
Proof.
  intros Hacc. destruct o as [k|k|k|k f|p f| |b0]; simpl.
  - by apply Request_accounted.
  - by apply Prefetch_accounted.
  - by apply Get_accounted.
  - unfold Release. unfold_monad.
    destruct (find_if (key_equals k) (m_entries c)) as [before [|e after]] eqn:Hf;
      [by rewrite ?cache_eta|].
    apply Release_entry_accounted; [|done]. by eapply find_if_split.
  - unfold Release_pointer. unfold_monad.
    destruct (find_if (pointer_equals p) (m_entries c))
      as [before [|e after]] eqn:Hf; [by rewrite ?cache_eta|].
    apply Release_entry_accounted; [|done]. by eapply find_if_split.
  - by apply Clear_accounted.
  - destruct Hacc as [Hbal Hall]. by split.
Qed.

Lemma reached_accounted (ops : list Op) (b : B) :
  accounted (run ops (new_Cache b)).
Proof.
  assert (accounted (new_Cache b : Cache')) as Hnew.
  { split; [done|constructor]. }
  revert Hnew. generalize (new_Cache b : Cache'). unfold run.
  induction ops as [|o ops IH]; intros c Hc; simpl; [done|].
  apply IH. by apply step_accounted.
Qed.


(** X19. In a cache reached from a new one, the handle of every entry is one
    that [Load] returned for the entry's key, and an element pointer that is
    not null is one that [GetElement] returned for the entry's handle: the
    cache makes up neither. *)
Theorem reached_sourced (ops : list Op) (b : B) e :
  let c := run ops (new_Cache b) in
  e ∈ m_entries c ->
  CallLoad (key e) (handle e) ∈ calls c /\
  forall q, pElement e = Some q ->
            CallGetElement (handle e) (Some q) ∈ calls c.
Proof.
  intros c He. destruct (reached_accounted ops b) as [_ Hall].
  eapply Forall_forall in Hall; [exact Hall|exact He].
Qed.

(** ** Who is evicted, and when *)

(** X20. The entry at the tail of the list is the last that room-making
    evicts: when [MakeRoomForNewEntry] has evicted it, it has evicted every
    released and every prefetched entry of the list. *)
Theorem tail_evicted_last k c l e :
  m_entries c = l ++ [e] ->
  e ∉ m_entries (MakeRoomForNewEntry k c).2 ->
  m_entries (MakeRoomForNewEntry k c).2 = kept l /\
  Forall (fun e' => state e' = STATE_REQUESTED \/ state e' = STATE_AVAILABLE)
    (m_entries (MakeRoomForNewEntry k c).2).
Proof.
  intros Hl Hout.
  destruct (MakeRoomForNewEntry_calls k c)
    as (scanned & unscanned & room & Hsplit & Hres & _).
  rewrite Hres in *. rewrite Hl in Hsplit.
  assert (unscanned = []) as ->.
  { destruct unscanned as [|x u] using rev_ind; [done|].
    rewrite app_assoc in Hsplit. apply app_inj_tail in Hsplit as [_ ->].
    exfalso. apply Hout. rewrite !elem_of_app. right. right.
    apply list_elem_of_here. }
  rewrite app_nil_r in *. subst scanned.
  assert (kept (l ++ [e]) = kept l) as Hk.
  { unfold kept in *. rewrite List.filter_app in *. simpl in *.
    destruct (negb (evictable e)); [|by rewrite app_nil_r].
    exfalso. apply Hout. apply elem_of_app. right. apply list_elem_of_here. }
  rewrite Hk. split; [done|].
  eapply Forall_impl; [apply kept_not_evictable|].
  intros e' He'. unfold evictable in He'. destruct (state e'); auto; done.
Qed.










(** X22. In a cache reached from a new one, [Release(k)] without
    [forceEviction] on an available entry unloads nothing: the entry goes to
    the tail of the list in state released with its handle and its element
    pointer, [IsCached(k)] stays true, and [Get(k)] still answers the
    element, without a call. *)
Theorem Release_available_keeps_cached (ops : list Op) (b : B) k before e after :
  let c := run ops (new_Cache b) in
  (Find k c).1 = (before, e :: after) ->
  state e = STATE_AVAILABLE ->
  let c' :=
    {| m_entries :=
         before ++ after
         ++ [{| key := key e; state := STATE_RELEASED; handle := handle e;
                pElement := pElement e |}];
       backing := backing c;
       calls := calls c |} in
  Release k false c = (tt, c') /\
  IsCached k c' = true /\
  Get k c' = (pElement e, c') /\
  pElement e <> None.
Proof.
  intros c Hf Hs c'. pose proof (reached_entries_ok ops b) as Hok.
  fold c in Hok. simpl in Hf.
  pose proof (find_if_split _ _ _ _ Hf) as Hl.
  pose proof (find_key_here _ _ _ _ _ Hf) as Hk.
  pose proof (found_resolved_ok _ _ _ _ Hok Hl) as He.
  unfold resolved_ok in He. rewrite Hs in He.
  destruct Hok as [Hnd _]. rewrite Hl in Hnd.
  split.
  { unfold Release, Release_entry. unfold_monad. by rewrite Hf, Hs. }
  unfold IsCached, Get. unfold_monad. subst c'. simpl. rewrite <- Hk.
  rewrite (find_key_moved before e
             {| key := key e; state := STATE_RELEASED; handle := handle e;
                pElement := pElement e |} after Hnd eq_refl).
  simpl. split; [done|]. split; [done|]. by destruct (pElement e).
Qed.

End Properties.

(** * The properties on the store with slots *)

Example MakeRoomForNewEntry_mixed :
  (MakeRoomForNewEntry 9 SlotStore.mixed).1 = true /\
  keys (m_entries (MakeRoomForNewEntry 9 SlotStore.mixed).2) = [2; 1] /\
  calls (MakeRoomForNewEntry 9 SlotStore.mixed).2
    = calls SlotStore.mixed
      ++ [CallHasRoomFor 9 false; CallHasRoomFor 9 false; CallUnload 2;
          CallHasRoomFor 9 true; CallHasRoomFor 9 true].
Proof. by vm_compute. Qed.

Example Request_when_released_evicts :
  let c := (Request 9 (Request 8 SlotStore.released7).2).2 in
  keys (m_entries c) = [8; 9] /\ IsCached 7 c = false.
Proof. by vm_compute. Qed.

Lemma Request_available_idempotent_witness :
  (Find 7 SlotStore.available7).1
    = ([], [{| key := 7; state := STATE_AVAILABLE; handle := 0;
               pElement := Some 100 |}]) /\
  Request 7 SlotStore.available7 = (true, SlotStore.available7) /\
  Request_times 3 7 SlotStore.available7 = (tt, SlotStore.available7).
Proof.
  split; [reflexivity|].
  apply (Request_available_idempotent 7 SlotStore.available7 []
           {| key := 7; state := STATE_AVAILABLE; handle := 0;
              pElement := Some 100 |} [] 3); reflexivity.
Defined.

Lemma Request_released_reloads_witness :
  (Find 7 SlotStore.released7).1
    = ([], [{| key := 7; state := STATE_RELEASED; handle := 0;
               pElement := Some 100 |}]) /\
  Request 7 SlotStore.released7 =
    (true,
     {| m_entries :=
          [{| key := 7; state := STATE_AVAILABLE; handle := 0;
              pElement := Some 100 |}];
        backing := backing SlotStore.released7;
        calls := calls SlotStore.released7 |}).
Proof.
  split; [reflexivity|].
  apply (Request_released_reloads 7 SlotStore.released7 []
           {| key := 7; state := STATE_RELEASED; handle := 0;
              pElement := Some 100 |} []); reflexivity.
Defined.

Lemma Release_never_held_witness :
  Release 7 false SlotStore.prefetched7 = (tt, SlotStore.prefetched7) /\
  Release_entry []
    {| key := 7; state := STATE_PREFETCHED; handle := 0; pElement := None |}
    [] false SlotStore.prefetched7 = (tt, SlotStore.prefetched7) /\
  Release 7 true SlotStore.prefetched7 =
    (tt, {| m_entries := [];
            backing := Unload 0 (backing SlotStore.prefetched7);
            calls := calls SlotStore.prefetched7 ++ [CallUnload 0] |}).
Proof.
  apply (Release_never_held 7 SlotStore.prefetched7 []
           {| key := 7; state := STATE_PREFETCHED; handle := 0;
              pElement := None |} []).
  - reflexivity.
  - left. reflexivity.
Defined.

Lemma Request_false_without_room_witness :
  Request 3 SlotStore.full = (false, (Request 3 SlotStore.full).2) /\
  (3 ∉ keys (m_entries SlotStore.full)) /\
  MakeRoomForNewEntry 3 SlotStore.full
    = (false, (Request 3 SlotStore.full).2) /\
  (exists earlier,
     calls (Request 3 SlotStore.full).2
     = earlier ++ [CallHasRoomFor 3 false]) /\
  (3 ∉ keys (m_entries (Request 3 SlotStore.full).2)).
Proof.
  split; [reflexivity|].
  apply (Request_false_without_room 3 SlotStore.full). reflexivity.
Defined.

Lemma Release_null_pointer_witness :
  exists before e after,
    m_entries SlotStore.requested7 = before ++ e :: after /\
    Forall (fun e' => pElement e' <> None) before /\
    pElement e = None /\
    (state e = STATE_REQUESTED \/ state e = STATE_PREFETCHED) /\
    Release_pointer None false SlotStore.requested7 =
      (tt,
       if bool_decide (state e = STATE_REQUESTED) || false
       then {| m_entries := before ++ after;
               backing := Unload (handle e) (backing SlotStore.requested7);
               calls := calls SlotStore.requested7
                        ++ [CallUnload (handle e)] |}
       else SlotStore.requested7).
Proof.
  apply (Release_null_pointer [OpRequest 7] (SlotStore.fresh 2) false
           {| key := 7; state := STATE_REQUESTED; handle := 0;
              pElement := None |}).
  - vm_compute. constructor.
  - reflexivity.
Defined.

(** C1, as it is written, fails.  Key 7 is requested, its load completes,
    it is got and then released: the entry is in state released, and
    [Get(7)] answers the address of the element, not null. *)
Lemma Get_released_not_none :
  SlotStore.released7
    = run [OpRequest 7;
           OpBacking (SlotStore.mk 2 [0] 1 true);
           OpGet 7; OpRelease 7 false]
          (new_Cache (SlotStore.fresh 2)) /\
  (Find 7 SlotStore.released7).1
    = ([], [{| key := 7; state := STATE_RELEASED; handle := 0;
               pElement := Some 100 |}]) /\
  (Get 7 SlotStore.released7).1 = Some 100 /\
  (Get 7 SlotStore.released7).1 <> None.
Proof. by vm_compute. Qed.

(** C3, as it is written, fails.  The entry of key 7 is released; [Release]
    with [forceEviction] erases it and unloads its handle, and the call
    hands back nothing. *)
Lemma Release_forced_erases_released :
  (Find 7 SlotStore.released7).1
    = ([], [{| key := 7; state := STATE_RELEASED; handle := 0;
               pElement := Some 100 |}]) /\
  Release 7 true SlotStore.released7
    = (tt, {| m_entries := [];
              backing := SlotStore.mk 2 [] 1 true;
              calls := calls SlotStore.released7 ++ [CallUnload 0] |}) /\
  m_entries (Release 7 true SlotStore.released7).2
    <> m_entries SlotStore.released7.
Proof. by vm_compute. Qed.

(** C10, as it is written, fails.  The only entry is prefetched and its
    element pointer is null; [Release] with a null pointer and without
    [forceEviction] finds it and leaves the cache exactly as it was. *)
Lemma Release_null_prefetched_no_op :
  m_entries SlotStore.prefetched7
    = [{| key := 7; state := STATE_PREFETCHED; handle := 0;
          pElement := None |}] /\
  (Find_pointer None SlotStore.prefetched7).1
    = ([], m_entries SlotStore.prefetched7) /\
  Release_pointer None false SlotStore.prefetched7
    = (tt, SlotStore.prefetched7).
Proof. by vm_compute. Qed.

(** [IsEmpty] on a new cache, and after [Clear]. *)
Example IsEmpty_new_Cache :
  let c : SlotStore.Cache := new_Cache (SlotStore.fresh 2) in
  m_entries c = [] /\ IsEmpty c = None.
Proof. by vm_compute. Qed.

Example Clear_full :
  Clear SlotStore.full
    = (tt, {| m_entries := [];
              backing := SlotStore.mk 2 [] 2 false;
              calls := calls SlotStore.full ++ [CallUnload 0; CallUnload 1] |})
  /\ IsEmpty (Clear SlotStore.full).2 = None.
Proof. by vm_compute. Qed.

(** ** The further properties on the store with slots *)

Example Request_on_shrunk :
  Request 3 SlotStore.shrunk
  = (false,
     {| m_entries :=
          [{| key := 1; state := STATE_REQUESTED; handle := 0;
              pElement := None |}];
        backing := SlotStore.mk 1 [0] 2 false;
        calls := calls SlotStore.shrunk
                 ++ [CallHasRoomFor 3 false; CallHasRoomFor 3 false;
                     CallUnload 1; CallHasRoomFor 3 false;
                     CallHasRoomFor 3 false] |}).
Proof. by vm_compute. Qed.

Lemma absent_key_neutral_witness :
  (9 ∉ keys (m_entries SlotStore.available7)) /\
  Get 9 SlotStore.available7 = (None, SlotStore.available7) /\
  Release 9 true SlotStore.available7 = (tt, SlotStore.available7) /\
  IsCached 9 SlotStore.available7 = false.
Proof.
  assert (9 ∉ keys (m_entries SlotStore.available7)) as Hk.
  { vm_compute. intros Hin. apply elem_of_cons in Hin as [Hin|Hin].
    - discriminate Hin.
    - by apply elem_of_nil in Hin. }
  split; [exact Hk|].
  exact (absent_key_neutral 9 SlotStore.available7 true Hk).
Defined.

Lemma Release_removes_witness :
  let c : SlotStore.Cache := run [OpRequest 7] (new_Cache (SlotStore.fresh 2)) in
  let e := {| key := 7; state := STATE_REQUESTED; handle := 0;
              pElement := None |} in
  (Find 7 c).1 = ([], [e]) /\
  Release 7 false c =
    (tt, {| m_entries := [];
            backing := Unload 0 (backing c);
            calls := calls c ++ [CallUnload 0] |}) /\
  (7 ∉ keys (m_entries (Release 7 false c).2)) /\
  IsCached 7 (Release 7 false c).2 = false /\
  (Get 7 (Release 7 false c).2).1 = None.
Proof.
  intros c e. split; [reflexivity|].
  apply (Release_removes [OpRequest 7] (SlotStore.fresh 2) 7 false [] e []).
  - reflexivity.
  - left. reflexivity.
Defined.

Lemma Release_then_Request_witness :
  let ops := [OpRequest 7; OpBacking (SlotStore.mk 2 [0] 1 true); OpGet 7] in
  let c : SlotStore.Cache := run ops (new_Cache (SlotStore.fresh 2)) in
  let e := {| key := 7; state := STATE_AVAILABLE; handle := 0;
              pElement := Some 100 |} in
  (Find 7 c).1 = ([], [e]) /\
  Request 7 (Release 7 false c).2 =
    (true, {| m_entries := [e]; backing := backing c; calls := calls c |}).
Proof.
  intros ops c e. split; [reflexivity|].
  apply (Release_then_Request ops (SlotStore.fresh 2) 7 [] e []); reflexivity.
Defined.

Lemma absent_key_loads_witness :
  (3 ∉ keys (m_entries SlotStore.requested7)) /\
  Request 3 SlotStore.requested7 =
    (true,
     {| m_entries :=
          m_entries SlotStore.requested7
          ++ [{| key := 3; state := STATE_REQUESTED; handle := 1;
                 pElement := None |}];
        backing := SlotStore.mk 2 [0; 1] 2 false;
        calls := calls SlotStore.requested7
                 ++ [CallHasRoomFor 3 true; CallHasRoomFor 3 true;
                     CallLoad 3 1] |}) /\
  Prefetch 3 SlotStore.requested7 =
    (tt,
     {| m_entries :=
          m_entries SlotStore.requested7
          ++ [{| key := 3; state := STATE_PREFETCHED; handle := 1;
                 pElement := None |}];
        backing := SlotStore.mk 2 [0; 1] 2 false;
        calls := calls SlotStore.requested7
                 ++ [CallHasRoomFor 3 true; CallHasRoomFor 3 true;
                     CallLoad 3 1] |}).
Proof.
  assert (3 ∉ keys (m_entries SlotStore.requested7)) as Hk.
  { vm_compute. intros Hin. apply elem_of_cons in Hin as [Hin|Hin].
    - discriminate Hin.
    - by apply elem_of_nil in Hin. }
  split; [exact Hk|].
  exact (absent_key_loads 3 SlotStore.requested7 Hk).
Defined.

Lemma Request_present_frame_witness :
  let c := SlotStore.prefetched7 in
  let e := {| key := 7; state := STATE_PREFETCHED; handle := 0;
              pElement := None |} in
  (Find 7 c).1 = ([], [e]) /\
  (Request 7 c).1 = true /\
  keys (m_entries (Request 7 c).2) = keys (m_entries c) /\
  handles (m_entries (Request 7 c).2) = handles (m_entries c) /\
  other_keys 7 (m_entries (Request 7 c).2) = other_keys 7 (m_entries c) /\
  (calls (Request 7 c).2 = calls c \/
   state e = STATE_PREFETCHED /\
   exists p, calls (Request 7 c).2 = calls c ++ [CallGetElement (handle e) p]).
Proof.
  intros c e. split; [reflexivity|].
  apply (Request_present_frame 7 c [] e []). reflexivity.
Defined.

Lemma Request_prefetched_witness :
  let c : SlotStore.Cache := run [OpPrefetch 7] (new_Cache (SlotStore.fresh 2)) in
  (Find 7 c).1
    = ([], [{| key := 7; state := STATE_PREFETCHED; handle := 0;
               pElement := None |}]) /\
  Request 7 c =
    (true,
     {| m_entries :=
          [{| key := 7; state := STATE_REQUESTED; handle := 0;
              pElement := None |}];
        backing := backing c;
        calls := calls c ++ [CallGetElement 0 None] |}) /\
  (IsCached 7 (Request 7 c).2 = true <->
   (GetElement 0 (backing c)).1 <> None).
Proof.
  intros c. split; [reflexivity|].
  exact (Request_prefetched [OpPrefetch 7] (SlotStore.fresh 2) 7 []
           {| key := 7; state := STATE_PREFETCHED; handle := 0;
              pElement := None |} [] eq_refl eq_refl).
Defined.

Lemma Prefetch_present_witness :
  let c := SlotStore.released7 in
  let e := {| key := 7; state := STATE_RELEASED; handle := 0;
              pElement := Some 100 |} in
  (Find 7 c).1 = ([], [e]) /\
  Prefetch 7 c
    = (tt, {| m_entries := [e]; backing := backing c; calls := calls c |}) /\
  m_entries (Prefetch 7 c).2 ≡ₚ m_entries c /\
  other_keys 7 (m_entries (Prefetch 7 c).2) = other_keys 7 (m_entries c).
Proof.
  intros c e. split; [reflexivity|].
  apply (Prefetch_present 7 c [] e []). reflexivity.
Defined.

Lemma MakeRoomForNewEntry_with_room_witness :
  let c := SlotStore.requested7 in
  HasRoomFor 3 (backing c) = (true, backing c) /\
  MakeRoomForNewEntry 3 c =
    (true, {| m_entries := m_entries c;
              backing := backing c;
              calls := calls c
                       ++ [CallHasRoomFor 3 true; CallHasRoomFor 3 true] |}).
Proof.
  intros c. split; [reflexivity|].
  exact (MakeRoomForNewEntry_with_room 3 c (backing c) eq_refl).
Defined.

Lemma Request_false_flushes_witness :
  (forall b0 : SlotStore.t, (HasRoomFor 3 b0).2 = b0) /\
  (Request 3 SlotStore.shrunk).1 = false /\
  m_entries (Request 3 SlotStore.shrunk).2
    = kept (m_entries SlotStore.shrunk) /\
  Forall (fun e => state e = STATE_REQUESTED \/ state e = STATE_AVAILABLE)
    (m_entries (Request 3 SlotStore.shrunk).2).
Proof.
  split; [intros b0; reflexivity|]. split; [reflexivity|].
  apply (Request_false_flushes 3 SlotStore.shrunk).
  - intros b0. reflexivity.
  - reflexivity.
Defined.

Lemma reached_sourced_witness :
  let c : SlotStore.Cache := run [OpRequest 7] (new_Cache (SlotStore.fresh 2)) in
  let e := {| key := 7; state := STATE_REQUESTED; handle := 0;
              pElement := None |} in
  e ∈ m_entries c /\
  CallLoad 7 0 ∈ calls c /\
  forall q, pElement e = Some q -> CallGetElement 0 (Some q) ∈ calls c.
Proof.
  intros c e.
  assert (e ∈ m_entries c) as He by (vm_compute; constructor).
  split; [exact He|].
  exact (reached_sourced [OpRequest 7] (SlotStore.fresh 2) e He).
Defined.

Lemma tail_evicted_last_witness :
  let c := SlotStore.shrunk in
  let e1 := {| key := 1; state := STATE_REQUESTED; handle := 0;
               pElement := None |} in
  let e2 := {| key := 2; state := STATE_PREFETCHED; handle := 1;
               pElement := None |} in
  m_entries c = [e1] ++ [e2] /\
  (e2 ∉ m_entries (MakeRoomForNewEntry 3 c).2) /\
  m_entries (MakeRoomForNewEntry 3 c).2 = kept [e1] /\
  Forall (fun e' => state e' = STATE_REQUESTED \/ state e' = STATE_AVAILABLE)
    (m_entries (MakeRoomForNewEntry 3 c).2).
Proof.
  intros c e1 e2.
  assert (e2 ∉ m_entries (MakeRoomForNewEntry 3 c).2) as Hout.
  { vm_compute. intros Hin. apply elem_of_cons in Hin as [Hin|Hin].
    - discriminate Hin.
    - by apply elem_of_nil in Hin. }
  split; [reflexivity|]. split; [exact Hout|].
  exact (tail_evicted_last 3 c [e1] e2 eq_refl Hout).
Defined.


Lemma Release_available_keeps_cached_witness :
  let ops := [OpRequest 7; OpBacking (SlotStore.mk 2 [0] 1 true); OpGet 7] in
  let c : SlotStore.Cache := run ops (new_Cache (SlotStore.fresh 2)) in
  let e := {| key := 7; state := STATE_AVAILABLE; handle := 0;
              pElement := Some 100 |} in
  let c' :=
    {| m_entries :=
         [{| key := 7; state := STATE_RELEASED; handle := 0;
             pElement := Some 100 |}];
       backing := backing c;
       calls := calls c |} in
  (Find 7 c).1 = ([], [e]) /\
  Release 7 false c = (tt, c') /\
  IsCached 7 c' = true /\
  Get 7 c' = (Some 100, c') /\
  Some 100 <> (None : option nat).
Proof.
  intros ops c e c'. split; [reflexivity|].
  exact (Release_available_keeps_cached ops (SlotStore.fresh 2) 7 [] e []
           eq_refl eq_refl).
Defined.
